(** * GovRedemption: the mapping loader and the redemption guard of main.go

    A shallow embedding of [LoadMappingFromCSV], [BuildLookupMap], the
    [RedemptionManager] and [main] of main.go, followed by the properties of
    the specification that concern them and by further properties of the
    code.

    Conventions.
    - Go strings are byte strings: [string] (a list of [ascii]).
    - [int64] values are [Z]; the only arithmetic on them happens inside
      [strconv.ParseInt], whose 64-bit wrap-around is written out.
    - Go maps are [gmap string _]; [m[k] = v] is [<[k:=v]> m], the
      two-result lookup [v, ok := m[k]] is [m !! k].
    - A Go result pair [(value, error)] is a pair whose second component is
      an [option error] ([None] is [nil]); a nil pointer or nil slice in the
      first component is [None], respectively [[]].
    - [time.Now().UnixMilli()] is an input of the call that reads it.
    - [os.Open] and the way a CSV reader splits a file into records are
      inputs; the check [ReadAll] makes of the number of fields of each
      record is written out. *)

From Stdlib Require Import ZArith String Ascii List Lia.
From Stdlib Require Import DecimalString.
From stdpp Require Import base option list strings gmap fin_maps.

Import ListNotations.

(** ** Data model *)

Module StaffMapping.
Record t : Type := mk {
  StaffPassID : string;
  TeamName : string;
  CreatedAt : Z
}.
End StaffMapping.

Module Redemption.
Record t : Type := mk {
  TeamName : string;
  RedeemedAt : Z
}.
End Redemption.

(** Go [error] values: [errors.New text], [fmt.Errorf] with one [%w]
    verb, which wraps the error it is given, and the [*csv.ParseError] of
    [encoding/csv], with its fields. *)
Inductive error : Type :=
| errors_New (text : string)
| fmt_Errorf (format : string) (wrapped : error)
| csv_ParseError (StartLine Line Column : Z) (Err : error).

#[global] Instance error_eq_dec : EqDecision error.
Proof. solve_decision. Defined.

#[global] Instance Redemption_eq_dec : EqDecision Redemption.t.
Proof. solve_decision. Defined.

#[global] Instance StaffMapping_eq_dec : EqDecision StaffMapping.t.
Proof. solve_decision. Defined.

(** ** [strconv.ParseInt s 10 64]

    The loader's only use of [strconv] is [ParseInt(record[2], 10, 64)]; the
    standard library's function is written out for that base and bit size.
    [uint64] arithmetic wraps modulo [2^64]. *)

Inductive NumError : Type := ErrSyntax | ErrRange.

Definition base : Z := 10.
Definition bitSize : Z := 64.
Definition maxUint64 : Z := 2 ^ 64 - 1.

Definition uint64 (z : Z) : Z := z mod 2 ^ 64.
Definition int64 (z : Z) : Z := (z + 2 ^ 63) mod 2 ^ 64 - 2 ^ 63.

Definition byte_of (c : ascii) : Z := Z.of_N (N_of_ascii c).

(** [lower c = c | ('x' - 'X')]. *)
Definition lower (c : Z) : Z := Z.lor c 32.

(** The digit a byte stands for, before the check against the base. *)
Definition digit_val (c : Z) : option Z :=
  if (48 <=? c)%Z && (c <=? 57)%Z then Some (c - 48)%Z
  else if (97 <=? lower c)%Z && (lower c <=? 122)%Z then Some (lower c - 97 + 10)%Z
  else None.

(** The loop of [ParseUint] over the bytes of [s], from the accumulator [n]. *)
Fixpoint ParseUint_loop (s : string) (n : Z) : Z * option NumError :=
  let cutoff := (maxUint64 / 10 + 1)%Z in
  let maxVal := uint64 (uint64 (Z.shiftl 1 bitSize) - 1) in
  match s with
  | EmptyString => (n, None)
  | String ch s' =>
      match digit_val (byte_of ch) with
      | None => (0%Z, Some ErrSyntax)
      | Some d =>
          if (d >=? base)%Z then (0%Z, Some ErrSyntax)
          else if (n >=? cutoff)%Z then (maxVal, Some ErrRange)
          else
            let n := uint64 (n * base) in
            let n1 := uint64 (n + d) in
            if (n1 <? n)%Z || (n1 >? maxVal)%Z then (maxVal, Some ErrRange)
            else ParseUint_loop s' n1
      end
  end.

Definition ParseUint (s : string) : Z * option NumError :=
  match s with
  | EmptyString => (0%Z, Some ErrSyntax)
  | _ => ParseUint_loop s 0%Z
  end.

Definition ParseInt (s : string) : Z * option NumError :=
  match s with
  | EmptyString => (0%Z, Some ErrSyntax)
  | String c0 rest =>
      let neg := bool_decide (c0 = "-"%char) in
      let s1 :=
        if bool_decide (c0 = "+"%char) then rest
        else if bool_decide (c0 = "-"%char) then rest
        else s in
      let '(un, err) := ParseUint s1 in
      match err with
      | Some ErrSyntax => (0%Z, err)
      | _ =>
          let cutoff := uint64 (Z.shiftl 1 (bitSize - 1)) in
          if negb neg && (un >=? cutoff)%Z then (int64 (cutoff - 1), Some ErrRange)
          else if neg && (un >? cutoff)%Z then (int64 (- int64 cutoff), Some ErrRange)
          else
            let n := int64 un in
            let n := if neg then int64 (- n) else n in
            (n, None)
      end
  end.

(** The part of [ParseInt] that follows the call of [ParseUint], as a
    function of the sign and of what [ParseUint] returned. *)
Definition signed (neg : bool) (res : Z * option NumError) : Z * option NumError :=
  let '(un, err) := res in
  match err with
  | Some ErrSyntax => (0%Z, err)
  | _ =>
      let cutoff := uint64 (Z.shiftl 1 (bitSize - 1)) in
      if negb neg && (un >=? cutoff)%Z then (int64 (cutoff - 1), Some ErrRange)
      else if neg && (un >? cutoff)%Z then (int64 (- int64 cutoff), Some ErrRange)
      else
        let n := int64 un in
        let n := if neg then int64 (- n) else n in
        (n, None)
  end.

(** *** Decimal numerals, to say what [ParseInt] accepts *)

Definition is_digit (c : ascii) : bool :=
  (48 <=? byte_of c)%Z && (byte_of c <=? 57)%Z.

(** The number a string of decimal digits denotes, continuing from [acc];
    [None] if a byte is not a decimal digit. *)
Fixpoint decimal (s : string) (acc : Z) : option Z :=
  match s with
  | EmptyString => Some acc
  | String c s' =>
      if is_digit c then decimal s' (acc * 10 + (byte_of c - 48))%Z else None
  end.

(** A numeral: an optional sign, then at least one decimal digit. *)
Definition numeral (s : string) : option Z :=
  match s with
  | EmptyString => None
  | String c rest =>
      if bool_decide (c = "+"%char) then
        match rest with EmptyString => None | _ => decimal rest 0 end
      else if bool_decide (c = "-"%char) then
        match rest with EmptyString => None | _ => Z.opp <$> decimal rest 0 end
      else decimal s 0
  end.

Definition in_int64 (v : Z) : bool := (- 2 ^ 63 <=? v)%Z && (v <=? 2 ^ 63 - 1)%Z.

(** ** [csv.Reader.ReadAll]

    [csv.NewReader] leaves [FieldsPerRecord] at its zero value, so the
    reader of [LoadMappingFromCSV] checks the number of fields: the first
    record sets the number, and a later record with another number is an
    error, [ErrFieldCount], of the whole read.

    How a reader splits the content into records is an input of the model,
    [read_records]: the records it splits off, each with the line it starts
    on, up to the end of the content, or up to the first record it cannot
    split, with the error of that record. *)

(** The value of [csv.ErrFieldCount]. *)
Definition ErrFieldCount : error := errors_New "wrong number of fields".

Module csv.

(** The end of [readRecord]: the check, or the update, of the expected
    number of fields.  Returns the new value of [r.FieldsPerRecord] and the
    error. *)
Definition check_fields (FieldsPerRecord : Z) (recLine : Z) (dst : list string)
  : Z * option error :=
  if (FieldsPerRecord >? 0)%Z then
    if bool_decide (Z.of_nat (length dst) ≠ FieldsPerRecord) then
      (FieldsPerRecord, Some (csv_ParseError recLine recLine 1 ErrFieldCount))
    else (FieldsPerRecord, None)
  else if (FieldsPerRecord =? 0)%Z then (Z.of_nat (length dst), None)
  else (FieldsPerRecord, None).

(** The loop of [ReadAll] over the records still to come, [raw], with the
    error [errRead] that ends them ([None] for [io.EOF]) and the slice
    [records] built so far.  On an error the slice returned is [nil]. *)
Fixpoint ReadAll_loop (FieldsPerRecord : Z) (raw : list (Z * list string))
  (errRead : option error) (records : list (list string))
  : list (list string) * option error :=
  match raw with
  | [] =>
      match errRead with
      | Some err => ([], Some err)
      | None => (records, None)
      end
  | (recLine, dst) :: raw' =>
      let '(FieldsPerRecord', err) := check_fields FieldsPerRecord recLine dst in
      match err with
      | Some err => ([], Some err)
      | None => ReadAll_loop FieldsPerRecord' raw' errRead (records ++ [dst])
      end
  end.

Section Reader.

Variable File : Type.
Variable read_records : File → list (Z * list string) * option error.

(** [csv.NewReader(file).ReadAll()]. *)
Definition ReadAll (file : File) : list (list string) * option error :=
  let '(raw, errRead) := read_records file in
  ReadAll_loop 0 raw errRead [].

End Reader.

End csv.

(** Every record has as many fields as the first one. *)
Definition same_fields (records : list (list string)) : Prop :=
  Forall (λ record, length record = length (hd [] records)) records.

#[global] Instance same_fields_dec records : Decision (same_fields records).
Proof. unfold same_fields. apply _. Defined.

(** ** The mapping loader *)

Section Loader.

(** [os.Open] and [csv.Reader.ReadAll] are the file system and the CSV
    reader of the standard library: inputs of the loader.  [File] is what
    [os.Open] hands to the reader; on the reader that [csv.NewReader] sets
    up, [csv_ReadAll] is [csv.ReadAll] above. *)
Variable File : Type.
Variable os_Open : string → File * option error.
Variable csv_ReadAll : File → list (list string) * option error.

(** One iteration of the loop [for i, record := range records]. *)
Definition load_row (mappings : list StaffMapping.t) (i : nat) (record : list string)
  : list StaffMapping.t :=
  if (i =? 0)%nat then mappings
  else if (length record <? 3)%nat then mappings
  else
    let '(createdAt, err) := ParseInt (nth 2 record ""%string) in
    match err with
    | Some _ => mappings
    | None =>
        let mapping :=
          {| StaffMapping.StaffPassID := nth 0 record ""%string;
             StaffMapping.TeamName := nth 1 record ""%string;
             StaffMapping.CreatedAt := createdAt |} in
        mappings ++ [mapping]
    end.

(** The loop from index [i] on, with the slice [mappings] built so far. *)
Fixpoint load_rows (i : nat) (records : list (list string))
  (mappings : list StaffMapping.t) : list StaffMapping.t :=
  match records with
  | [] => mappings
  | record :: records' => load_rows (S i) records' (load_row mappings i record)
  end.

(** [LoadMappingFromCSV]: the slice and the error it returns.  The deferred
    [file.Close()] acts on the file only. *)
Definition LoadMappingFromCSV (filePath : string)
  : list StaffMapping.t * option error :=
  let '(file, err) := os_Open filePath in
  match err with
  | Some err => ([], Some (fmt_Errorf "unable to open CSV file: %w" err))
  | None =>
      let '(records, err) := csv_ReadAll file in
      match err with
      | Some err => ([], Some (fmt_Errorf "error reading CSV file: %w" err))
      | None => (load_rows 0 records [], None)
      end
  end.

End Loader.

(** The body of the loop of [BuildLookupMap]:
    [lookup[mapping.StaffPassID] = mapping.TeamName]. *)
Definition assign (lookup : gmap string string) (mapping : StaffMapping.t)
  : gmap string string :=
  <[StaffMapping.StaffPassID mapping := StaffMapping.TeamName mapping]> lookup.

Definition BuildLookupMap (mappings : list StaffMapping.t) : gmap string string :=
  fold_left assign mappings ∅.

(** *** The loader in the words of the specification *)

(** A data row is valid when it has at least three fields and the third
    parses; a valid row becomes the record of its first three fields. *)
Definition row_mapping (record : list string) : option StaffMapping.t :=
  match record with
  | f0 :: f1 :: f2 :: _ =>
      match ParseInt f2 with
      | (createdAt, None) => Some (StaffMapping.mk f0 f1 createdAt)
      | (_, Some _) => None
      end
  | _ => None
  end.

(** The header is dropped, the valid rows are kept in order. *)
Definition valid_rows (records : list (list string)) : list StaffMapping.t :=
  omap row_mapping (tail records).

(** The team of the last row of [mappings] whose id is [staffPassID]. *)
Definition last_team (staffPassID : string) (mappings : list StaffMapping.t)
  : option string :=
  StaffMapping.TeamName <$>
    last (filter (λ m, StaffMapping.StaffPassID m = staffPassID) mappings).

(** *** Rows and records, for the properties of the loop and of the map *)

(** A row that the loop keeps, with the staff id [k] in its first field. *)
Definition kept_for (k : string) (record : list string) : Prop :=
  is_Some (row_mapping record) ∧ nth 0 record ""%string = k.

#[global] Instance kept_for_dec (k : string) (record : list string) :
  Decision (kept_for k record).
Proof. unfold kept_for. apply _. Defined.

(** What [BuildLookupMap] reads of a row. *)
Definition id_team (m : StaffMapping.t) : string * string :=
  (StaffMapping.StaffPassID m, StaffMapping.TeamName m).

(** *** Sample inputs

    A file is given by its lines, each by the fields the reader splits it
    into; the lines are numbered from 1, and a line without a field is an
    empty line, which the reader passes over.  [sample_records] has the
    three rows of main_test.go and, between them, rows whose third field is
    not an integer of 64 bits; every line has three fields. *)
Definition sample_records : list (list string) :=
  [ ["staff_pass_id"; "team_name"; "created_at"];
    ["STAFF_H123804820G"; "BASS"; "1623772799000"];
    ["MANAGER_T999888420B"; "RUST"; EmptyString];
    ["MANAGER_T999888420B"; "RUST"; "1623772799000"];
    ["BOSS_T000000001P"; "RUST"; "yesterday"];
    ["BOSS_T000000001P"; "RUST"; "1623872111000"];
    ["STAFF_H123804820G"; "GRYFFINDOR"; "99999999999999999999"] ]%string.

(** The table of [TestLoadMappingFromCSV] in main_test.go. *)
Definition test_records : list (list string) :=
  [ ["staff_pass_id"; "team_name"; "created_at"];
    ["STAFF_H123804820G"; "BASS"; "1623772799000"];
    ["MANAGER_T999888420B"; "RUST"; "1623772799000"];
    ["BOSS_T000000001P"; "RUST"; "1623872111000"] ]%string.

(** A file whose second line has two fields only. *)
Definition short_records : list (list string) :=
  [ ["staff_pass_id"; "team_name"; "created_at"];
    ["STAFF_H123804820G"; "BASS"];
    ["MANAGER_T999888420B"; "RUST"; "1623772799000"] ]%string.

(** A file whose third line has five fields, under a header of three. *)
Definition long_records : list (list string) :=
  [ ["staff_pass_id"; "team_name"; "created_at"];
    ["STAFF_H123804820G"; "BASS"; "1623772799000"];
    ["BOSS_T000000001P"; "RUST"; "1623872111000"; "director"; "on leave"] ]%string.

(** A file with five fields on every line, the header included. *)
Definition wide_records : list (list string) :=
  [ ["staff_pass_id"; "team_name"; "created_at"; "role"; "note"];
    ["STAFF_H123804820G"; "BASS"; "1623772799000"; "engineer"; EmptyString];
    ["BOSS_T000000001P"; "RUST"; "1623872111000"; "director"; "on leave"];
    ["MANAGER_T999888420B"; "RUST"; "soon"; "manager"; "acting"] ]%string.

(** A file system with four files, and the reader of the loader on them. *)
Definition sample_Open (filePath : string) : list (list string) * option error :=
  if bool_decide (filePath = "mapping.csv"%string) then (sample_records, None)
  else if bool_decide (filePath = "short.csv"%string) then (short_records, None)
  else if bool_decide (filePath = "long.csv"%string) then (long_records, None)
  else if bool_decide (filePath = "wide.csv"%string) then (wide_records, None)
  else ([], Some (errors_New "open: no such file or directory")).

Definition sample_read_records (file : list (list string))
  : list (Z * list string) * option error :=
  (filter (λ r, r.2 ≠ []) (imap (λ i dst, (Z.of_nat (S i), dst)) file), None).

Definition sample_ReadAll (file : list (list string))
  : list (list string) * option error :=
  csv.ReadAll _ sample_read_records file.

(** ** The redemption guard *)

(** [RedemptionManager]: between two calls the mutex [mu] is released, so a
    sequential state is the map alone; the mutex itself is modelled in
    [Module Concurrent] below. *)
Record RedemptionManager : Type := mkRedemptionManager {
  redemptions : gmap string Redemption.t
}.

Definition NewRedemptionManager : RedemptionManager :=
  {| redemptions := ∅ |}.

(** [IsEligible], in state-passing style: the manager after the call and the
    returned boolean. *)
Definition IsEligible (rm : RedemptionManager) (teamName : string)
  : RedemptionManager * bool :=
  let exists_ :=
    match redemptions rm !! teamName with Some _ => true | None => false end in
  (rm, negb exists_).

Definition already_redeemed : error :=
  errors_New "team has already redeemed their gift".

(** [AddRedemption]; [now] is the value [time.Now().UnixMilli()] reads. *)
Definition AddRedemption (rm : RedemptionManager) (teamName : string) (now : Z)
  : RedemptionManager * (option Redemption.t * option error) :=
  match redemptions rm !! teamName with
  | Some _ => (rm, (None, Some already_redeemed))
  | None =>
      let redemption :=
        {| Redemption.TeamName := teamName; Redemption.RedeemedAt := now |} in
      ({| redemptions := <[teamName := redemption]> (redemptions rm) |},
       (Some redemption, None))
  end.

(** *** Sequences of calls on one manager *)

Inductive call : Type :=
| CallIsEligible (teamName : string)
| CallAddRedemption (teamName : string) (now : Z).

Inductive outcome : Type :=
| RetIsEligible (eligible : bool)
| RetAddRedemption (res : option Redemption.t * option error).

Definition exec (rm : RedemptionManager) (c : call) : RedemptionManager * outcome :=
  match c with
  | CallIsEligible teamName =>
      let '(rm', b) := IsEligible rm teamName in (rm', RetIsEligible b)
  | CallAddRedemption teamName now =>
      let '(rm', res) := AddRedemption rm teamName now in (rm', RetAddRedemption res)
  end.

(** The manager after a sequence of calls, and the trace of calls with their
    outcomes. *)
Fixpoint run (rm : RedemptionManager) (cs : list call) : RedemptionManager :=
  match cs with
  | [] => rm
  | c :: cs' => run (fst (exec rm c)) cs'
  end.

Fixpoint trace (rm : RedemptionManager) (cs : list call) : list (call * outcome) :=
  match cs with
  | [] => []
  | c :: cs' => (c, snd (exec rm c)) :: trace (fst (exec rm c)) cs'
  end.

(** A trace entry that is a successful [AddRedemption teamName]. *)
Definition redeems (teamName : string) (e : call * outcome) : bool :=
  match e with
  | (CallAddRedemption t _, RetAddRedemption (Some _, None)) =>
      bool_decide (t = teamName)
  | _ => false
  end.

(** The records of the store that belong to a team. *)
Definition records_of (rm : RedemptionManager) (teamName : string)
  : list (string * Redemption.t) :=
  filter (λ kv, Redemption.TeamName kv.2 = teamName) (map_to_list (redemptions rm)).

(** Every record sits under the key that is its own team name. *)
Definition keyed (rm : RedemptionManager) : Prop :=
  ∀ k r, redemptions rm !! k = Some r → Redemption.TeamName r = k.

(** *** Call sequences: what they amount to *)

(** The clock of the first [AddRedemption team] among the calls. *)
Fixpoint first_add (team : string) (cs : list call) : option Z :=
  match cs with
  | [] => None
  | CallAddRedemption t now :: cs' =>
      if bool_decide (t = team) then Some now else first_add team cs'
  | CallIsEligible _ :: cs' => first_add team cs'
  end.

Definition is_add (c : call) : bool :=
  match c with CallAddRedemption _ _ => true | CallIsEligible _ => false end.

(** The teams [AddRedemption] is called for. *)
Definition add_teams (cs : list call) : list string :=
  omap (λ c, match c with
             | CallAddRedemption t _ => Some t
             | CallIsEligible _ => None
             end) cs.

(** A trace entry that is a successful [AddRedemption], for any team. *)
Definition succeeds (e : call * outcome) : bool :=
  match e with
  | (CallAddRedemption _ _, RetAddRedemption (Some _, None)) => true
  | _ => false
  end.

(** ** The command line: [main]

    Standard output is the list of the strings written, one per call of
    [fmt.Print], [fmt.Println] or [fmt.Printf].  Standard input and the clock
    are the list [scans]: for each turn of the loop, the value [fmt.Scanln]
    leaves in [staffPassID] (the empty string when it stores nothing) and
    the value [time.Now().UnixMilli()] would read in that turn.  A list that
    ends before [exit] is read describes the program up to its next call of
    [fmt.Scanln]. *)

Definition newline : string := String "010"%char EmptyString.

(** [fmt.Println]: the operands separated by spaces, then a newline. *)
Definition Println (operands : list string) : string :=
  (String.concat " " operands ++ newline)%string.

(** The verb [%d] of [fmt.Printf] on an [int64]. *)
Definition format_d (z : Z) : string := NilZero.string_of_int (Z.to_int z).

(** A format with one verb, [%w]: the text with the verb replaced. *)
Fixpoint expand_w (format arg : string) : string :=
  match format with
  | EmptyString => EmptyString
  | String c rest =>
      match rest with
      | String c' rest' =>
          if bool_decide (c = "%"%char) && bool_decide (c' = "w"%char)
          then (arg ++ rest')%string
          else String c (expand_w rest arg)
      | EmptyString => String c EmptyString
      end
  end.

(** [err.Error()]; for a [*csv.ParseError] the three formats of its
    method, chosen as there by [e.Err == ErrFieldCount] and
    [e.StartLine != e.Line]. *)
Fixpoint Error (err : error) : string :=
  match err with
  | errors_New text => text
  | fmt_Errorf format wrapped => expand_w format (Error wrapped)
  | csv_ParseError StartLine Line Column Err =>
      if bool_decide (Err = ErrFieldCount) then
        ("record on line " ++ format_d Line ++ ": " ++ Error Err)%string
      else if bool_decide (StartLine ≠ Line) then
        ("record on line " ++ format_d StartLine
           ++ "; parse error on line " ++ format_d Line
           ++ ", column " ++ format_d Column ++ ": " ++ Error Err)%string
      else
        ("parse error on line " ++ format_d Line
           ++ ", column " ++ format_d Column ++ ": " ++ Error Err)%string
  end.

Definition prompt : string := "Enter staff pass ID (or type 'exit' to quit): ".

(** How a turn of the loop ends; [Panic] is the dereference of a nil
    [*Redemption]. *)
Inductive flow : Type := Continue | Break | Panic.

(** The body of the loop after [fmt.Scanln]. *)
Definition serve_one (lookup : gmap string string) (redemptionManager : RedemptionManager)
  (staffPassID : string) (now : Z) : RedemptionManager * list string * flow :=
  if bool_decide (staffPassID = "exit"%string) then
    (redemptionManager, [Println ["Exiting the program."%string]], Break)
  else
    match lookup !! staffPassID with
    | None =>
        (redemptionManager, [Println ["Staff pass ID not found."%string]], Continue)
    | Some teamName =>
        let belongs := Println ["Staff pass belongs to team:"%string; teamName] in
        let '(rm1, eligible) := IsEligible redemptionManager teamName in
        if eligible then
          let '(rm2, (redemption, err)) := AddRedemption rm1 teamName now in
          match err with
          | Some err =>
              (rm2, [belongs; Println ["Error during redemption:"%string; Error err]],
               Continue)
          | None =>
              match redemption with
              | Some redemption =>
                  (rm2,
                   [belongs;
                    ("Redemption successful for team "
                       ++ Redemption.TeamName redemption
                       ++ " at timestamp "
                       ++ format_d (Redemption.RedeemedAt redemption)
                       ++ newline)%string],
                   Continue)
              | None => (rm2, [belongs], Panic)
              end
          end
        else
          (rm1,
           [belongs;
            Println ["Team has already redeemed their gift. Please send the representative away."%string]],
           Continue)
    end.

Inductive status : Type :=
| Scanning      (* in [fmt.Scanln], the scans given used up *)
| Exited        (* [main] has returned *)
| Panicked.

(** The loop [for { ... }]. *)
Fixpoint serve (lookup : gmap string string) (redemptionManager : RedemptionManager)
  (scans : list (string * Z)) : RedemptionManager * list string * status :=
  match scans with
  | [] => (redemptionManager, [prompt], Scanning)
  | (staffPassID, now) :: scans' =>
      let '(rm', out, fl) := serve_one lookup redemptionManager staffPassID now in
      match fl with
      | Continue =>
          let '(rm'', out', st) := serve lookup rm' scans' in
          (rm'', prompt :: out ++ out', st)
      | Break => (rm', prompt :: out, Exited)
      | Panic => (rm', prompt :: out, Panicked)
      end
  end.

Section Main.

Variable File : Type.
Variable os_Open : string → File * option error.
Variable csv_ReadAll : File → list (list string) * option error.

(** [main]: what it writes and how it ends, from [os.Args], the file system
    and the scans. *)
Definition main (Args : list string) (scans : list (string * Z))
  : list string * status :=
  if (length Args <? 2)%nat then
    ([Println ["Usage: go run main.go <mapping_csv_file>"%string]], Exited)
  else
    let mappingFile := nth 1 Args ""%string in
    let '(mappings, err) := LoadMappingFromCSV File os_Open csv_ReadAll mappingFile in
    match err with
    | Some err =>
        ([Println ["Error loading mapping file:"%string; Error err]], Exited)
    | None =>
        let lookup := BuildLookupMap mappings in
        let redemptionManager := NewRedemptionManager in
        let '(_, out, st) := serve lookup redemptionManager scans in
        (out, st)
    end.

End Main.
(** The calls of [AddRedemption] a session amounts to: one for every scan
    before [exit] that the lookup table knows, for the team it gives. *)
Fixpoint session_calls (lookup : gmap string string) (scans : list (string * Z))
  : list call :=
  match scans with
  | [] => []
  | (staffPassID, now) :: scans' =>
      if bool_decide (staffPassID = "exit"%string) then []
      else
        match lookup !! staffPassID with
        | Some teamName => CallAddRedemption teamName now :: session_calls lookup scans'
        | None => session_calls lookup scans'
        end
  end.

Definition belongs_line (teamName : string) : string :=
  Println ["Staff pass belongs to team:"%string; teamName].

Definition success_line (teamName : string) (now : Z) : string :=
  ("Redemption successful for team " ++ teamName ++ " at timestamp "
     ++ format_d now ++ newline)%string.

Definition refused_line : string :=
  Println ["Team has already redeemed their gift. Please send the representative away."%string].

Definition not_found_line : string := Println ["Staff pass ID not found."%string].

Definition exiting_line : string := Println ["Exiting the program."%string].

(** A line that reports a successful redemption. *)
Definition is_success_line (line : string) : bool :=
  String.prefix "Redemption successful for team " line.

(** ** Concurrent calls of [AddRedemption]

    Goroutines that call [AddRedemption] on one manager, interleaved at the
    statements of the function.  The mutex is a boolean ([true] is locked);
    [Lock] can only be taken by a goroutine when it is released, and the
    deferred [Unlock] runs once the results are fixed. *)

Module Concurrent.

(** Where a goroutine stands in the body of [AddRedemption]. *)
Inductive pc : Type :=
| AtLock                                   (* before [rm.mu.Lock()] *)
| AtCheck                                  (* before the lookup of [teamName] *)
| AtCreate                                 (* before the record is built *)
| AtStore (redemption : Redemption.t)      (* before the assignment to the map *)
| AtUnlock (res : option Redemption.t * option error)  (* before the deferred [Unlock] *)
| Done (res : option Redemption.t * option error).     (* returned [res] *)

Record goroutine : Type := mkGoroutine {
  teamName : string;
  at_pc : pc
}.

Record state : Type := mkState {
  mu : bool;
  rm : RedemptionManager;
  goroutines : list goroutine
}.

(** One goroutine per entry of [teams], each about to call [AddRedemption]
    for that team on [rm0]. *)
Definition launch (rm0 : RedemptionManager) (teams : list string) : state :=
  {| mu := false; rm := rm0; goroutines := (λ t, mkGoroutine t AtLock) <$> teams |}.

Definition goto (σ : state) (i : nat) (g : goroutine) (p : pc) : list goroutine :=
  <[i := mkGoroutine (teamName g) p]> (goroutines σ).

(** One statement of goroutine [i]; [now] is the clock if the statement reads
    it.  [None]: the goroutine does not exist, has returned, or waits for
    the mutex. *)
Definition step (i : nat) (now : Z) (σ : state) : option state :=
  match goroutines σ !! i with
  | None => None
  | Some g =>
      match at_pc g with
      | AtLock =>
          if mu σ then None
          else Some {| mu := true; rm := rm σ; goroutines := goto σ i g AtCheck |}
      | AtCheck =>
          match redemptions (rm σ) !! teamName g with
          | Some _ =>
              Some {| mu := mu σ; rm := rm σ;
                      goroutines := goto σ i g (AtUnlock (None, Some already_redeemed)) |}
          | None =>
              Some {| mu := mu σ; rm := rm σ; goroutines := goto σ i g AtCreate |}
          end
      | AtCreate =>
          let redemption :=
            {| Redemption.TeamName := teamName g; Redemption.RedeemedAt := now |} in
          Some {| mu := mu σ; rm := rm σ; goroutines := goto σ i g (AtStore redemption) |}
      | AtStore redemption =>
          Some {| mu := mu σ;
                  rm := {| redemptions := <[teamName g := redemption]> (redemptions (rm σ)) |};
                  goroutines := goto σ i g (AtUnlock (Some redemption, None)) |}
      | AtUnlock res =>
          Some {| mu := false; rm := rm σ; goroutines := goto σ i g (Done res) |}
      | Done _ => None
      end
  end.

(** An interleaving is the list of the goroutines that move, each with the
    clock at that moment. *)
Fixpoint interleave (sched : list (nat * Z)) (σ : state) : option state :=
  match sched with
  | [] => Some σ
  | (i, now) :: sched' =>
      match step i now σ with
      | Some σ' => interleave sched' σ'
      | None => None
      end
  end.

Definition returned (g : goroutine) : bool :=
  match at_pc g with Done _ => true | _ => false end.

Definition all_returned (σ : state) : bool := forallb returned (goroutines σ).

(** The goroutine called for [team] and its call succeeded (its results are
    fixed at [AtUnlock]). *)
Definition succeeded (team : string) (g : goroutine) : bool :=
  bool_decide (teamName g = team) &&
  match at_pc g with
  | AtUnlock (Some _, None) | Done (Some _, None) => true
  | _ => false
  end.

Definition failed (team : string) (g : goroutine) : bool :=
  bool_decide (teamName g = team) &&
  match at_pc g with
  | AtUnlock (None, Some e) | Done (None, Some e) => bool_decide (e = already_redeemed)
  | _ => false
  end.

(** The goroutine holds the mutex. *)
Definition critical (g : goroutine) : bool :=
  match at_pc g with
  | AtCheck | AtCreate | AtStore _ | AtUnlock _ => true
  | AtLock | Done _ => false
  end.

Definition count (P : goroutine → bool) (gs : list goroutine) : nat :=
  length (filter (λ g, P g = true) gs).

(** What a goroutine has returned, if it has. *)
Definition result_of (g : goroutine) : option (option Redemption.t * option error) :=
  match at_pc g with Done res => Some res | _ => None end.

(** The schedule of a goroutine that runs alone on [rm0]: [Lock], the lookup
    and [Unlock], with the two statements that create the record in between
    when the team has none. *)
Definition alone (rm0 : RedemptionManager) (team : string) (now : Z) : list (nat * Z) :=
  match redemptions rm0 !! team with
  | Some _ => replicate 3 (0, now)
  | None => replicate 5 (0, now)
  end.

(** A sample interleaving of three calls for one team: goroutine 1 takes the
    mutex first, then goroutine 2, then goroutine 0; and the state it ends
    in. *)
Definition sample_schedule : list (nat * Z) :=
  [ (1, 100%Z); (1, 101%Z); (1, 102%Z); (1, 103%Z); (1, 104%Z);
    (2, 105%Z); (2, 106%Z); (2, 107%Z);
    (0, 108%Z); (0, 109%Z); (0, 110%Z) ].

Definition sample_final : state :=
  {| mu := false;
     rm := {| redemptions := {[ "RUST"%string := Redemption.mk "RUST" 102 ]} |};
     goroutines :=
       [ mkGoroutine "RUST" (Done (None, Some already_redeemed));
         mkGoroutine "RUST" (Done (Some (Redemption.mk "RUST" 102), None));
         mkGoroutine "RUST" (Done (None, Some already_redeemed)) ] |}.

(** How far a goroutine is: the number of statements it has left behind is at
    least this. *)
Definition progress (g : goroutine) : nat :=
  match at_pc g with
  | AtLock => 0
  | AtCheck => 1
  | AtCreate => 2
  | AtStore _ => 3
  | AtUnlock _ => 4
  | Done _ => 5
  end.

Definition total_progress (gs : list goroutine) : nat :=
  sum_list (progress <$> gs).

(** Called for [team] and between the check and the assignment. *)
Definition creating (team : string) (g : goroutine) : bool :=
  bool_decide (teamName g = team) &&
  match at_pc g with AtCreate | AtStore _ => true | _ => false end.

(** Called for [team] and past the check. *)
Definition decided (team : string) (g : goroutine) : bool :=
  bool_decide (teamName g = team) &&
  match at_pc g with AtUnlock _ | Done _ => true | _ => false end.

(** The results of the goroutine are [(&r, nil)]. *)
Definition returns_record (r : Redemption.t) (g : goroutine) : bool :=
  match at_pc g with
  | AtUnlock res | Done res => bool_decide (res = (Some r, None))
  | _ => false
  end.

(** The record a goroutine is about to store carries the team it was
    called for. *)
Definition stores_own_team (g : goroutine) : bool :=
  match at_pc g with
  | AtStore r => bool_decide (Redemption.TeamName r = teamName g)
  | _ => true
  end.

(** The invariant of the interleavings, for the team [team]:
    - the mutex is locked exactly when one goroutine is inside the function
      body, and no two are;
    - a record about to be stored carries the team of the call;
    - as long as [team] has no record, no call for [team] is past the check;
    - once [team] has the record [r], exactly one call for [team] succeeded,
      it returns [r], no call for [team] is between check and assignment,
      and every call for [team] that is past the check succeeded or failed
      with [already_redeemed]. *)
Definition inv (team : string) (σ : state) : Prop :=
  count critical (goroutines σ) = (if mu σ then 1 else 0) ∧
  Forall (λ g, stores_own_team g = true) (goroutines σ) ∧
  Forall (λ g, decided team g = true →
               (succeeded team g || failed team g) = true) (goroutines σ) ∧
  match redemptions (rm σ) !! team with
  | None => Forall (λ g, decided team g = false) (goroutines σ)
  | Some r =>
      Redemption.TeamName r = team ∧
      count (succeeded team) (goroutines σ) = 1 ∧
      Forall (λ g, creating team g = false) (goroutines σ) ∧
      Forall (λ g, succeeded team g = true → returns_record r g = true) (goroutines σ)
  end.

(** *** Interleavings and sequential runs *)

(** The mutex is locked exactly when one goroutine is inside the function
    body. *)
Definition mutex_ok (σ : state) : Prop :=
  count critical (goroutines σ) = (if mu σ then 1 else 0).

(** The call that takes effect at a step of goroutine [i]: a lookup that
    finds a record decides the failure, the assignment to the map decides
    the success.  A failing call never reads the clock; the clock of the
    step stands for it. *)
Definition commit (i : nat) (now : Z) (σ : state) : list (nat * call) :=
  match goroutines σ !! i with
  | Some g =>
      match at_pc g with
      | AtCheck =>
          match redemptions (rm σ) !! teamName g with
          | Some _ => [(i, CallAddRedemption (teamName g) now)]
          | None => []
          end
      | AtStore r => [(i, CallAddRedemption (teamName g) (Redemption.RedeemedAt r))]
      | _ => []
      end
  | None => []
  end.

(** The calls of an interleaving in the order in which they take effect,
    each with the goroutine that made it. *)
Fixpoint history (sched : list (nat * Z)) (σ : state) : list (nat * call) :=
  match sched with
  | [] => []
  | (i, now) :: sched' =>
      match step i now σ with
      | Some σ' => commit i now σ ++ history sched' σ'
      | None => []
      end
  end.

(** The results of a goroutine are fixed. *)
Definition fixed (g : goroutine) (res : option Redemption.t * option error) : Prop :=
  at_pc g = AtUnlock res ∨ at_pc g = Done res.

(** Every entry of the history [h] belongs to a goroutine whose results are
    fixed, and they are the outcome of the entry's call in the sequential run
    of [h] from [rm0]. *)
Definition entries (rm0 : RedemptionManager) (h : list (nat * call))
  (gs : list goroutine) : Prop :=
  ∀ k i c, h !! k = Some (i, c) →
    ∃ g res, gs !! i = Some g ∧ fixed g res ∧
             (∃ now, c = CallAddRedemption (teamName g) now) ∧
             trace rm0 (h.*2) !! k = Some (c, RetAddRedemption res).

(** Where goroutine [i] stands with respect to the history and the store
    [m]: before its call takes effect it is not in the history, and between
    the lookup and the assignment its team has no record. *)
Definition placed (h : list (nat * call)) (m : gmap string Redemption.t)
  (i : nat) (g : goroutine) : Prop :=
  match at_pc g with
  | AtLock | AtCheck => i ∉ h.*1
  | AtCreate => (i ∉ h.*1) ∧ m !! teamName g = None
  | AtStore r =>
      (i ∉ h.*1) ∧ m !! teamName g = None ∧ Redemption.TeamName r = teamName g
  | AtUnlock _ | Done _ => i ∈ h.*1
  end.

(** The invariant that ties an interleaving from [rm0] to the sequential run
    of its history [h]. *)
Definition linear (rm0 : RedemptionManager) (h : list (nat * call)) (σ : state) : Prop :=
  mutex_ok σ ∧
  rm σ = run rm0 (h.*2) ∧
  NoDup (h.*1) ∧
  entries rm0 h (goroutines σ) ∧
  (∀ i g, goroutines σ !! i = Some g → placed h (redemptions (rm σ)) i g).
(** Sample interleavings: three calls for a team that has redeemed, and
    calls for two teams at once, with the states they end in. *)
Definition sample_redeemed : RedemptionManager :=
  {| redemptions := {[ "RUST"%string := Redemption.mk "RUST" 1 ]} |}.

Definition sample_schedule_refused : list (nat * Z) :=
  [ (2, 10%Z); (2, 11%Z); (2, 12%Z); (0, 13%Z); (0, 14%Z); (0, 15%Z);
    (1, 16%Z); (1, 17%Z); (1, 18%Z) ].

Definition sample_final_refused : state :=
  {| mu := false;
     rm := sample_redeemed;
     goroutines :=
       [ mkGoroutine "RUST" (Done (None, Some already_redeemed));
         mkGoroutine "RUST" (Done (None, Some already_redeemed));
         mkGoroutine "RUST" (Done (None, Some already_redeemed)) ] |}.

Definition sample_schedule_mixed : list (nat * Z) :=
  [ (2, 20%Z); (2, 21%Z); (2, 22%Z); (2, 23%Z); (2, 24%Z);
    (1, 25%Z); (1, 26%Z); (1, 27%Z); (1, 28%Z); (1, 29%Z);
    (0, 30%Z); (0, 31%Z); (0, 32%Z) ].

Definition sample_final_mixed : state :=
  {| mu := false;
     rm := {| redemptions :=
                <[ "BASS"%string := Redemption.mk "BASS" 27 ]>
                  {[ "RUST"%string := Redemption.mk "RUST" 22 ]} |};
     goroutines :=
       [ mkGoroutine "RUST" (Done (None, Some already_redeemed));
         mkGoroutine "BASS" (Done (Some (Redemption.mk "BASS" 27), None));
         mkGoroutine "RUST" (Done (Some (Redemption.mk "RUST" 22), None)) ] |}.

End Concurrent.

(** * Properties *)

(** ** [strconv.ParseInt]: what it accepts *)

Lemma decimal_ge (s : string) (acc v : Z) :
  (0 ≤ acc)%Z → decimal s acc = Some v → (acc ≤ v)%Z.
Proof.
  revert acc. induction s as [|c s IH]; intros acc Hacc; cbn [decimal].
  - intros [= <-]. lia.
  - destruct (is_digit c) eqn:Hc; [|done].
    unfold is_digit in Hc. apply andb_true_iff in Hc as [H1%Z.leb_le H2%Z.leb_le].
    intros H. apply IH in H; lia.
Qed.

Lemma digit_val_digit (c : ascii) :
  is_digit c = true → digit_val (byte_of c) = Some (byte_of c - 48)%Z.
Proof. unfold is_digit, digit_val. by intros ->. Qed.

Lemma digit_val_other (c : ascii) :
  is_digit c = false →
  digit_val (byte_of c) = None ∨ ∃ d, digit_val (byte_of c) = Some d ∧ (10 ≤ d)%Z.
Proof.
  unfold is_digit, digit_val. intros ->.
  destruct (_ && _) eqn:E; [|by left].
  apply andb_true_iff in E as [H1%Z.leb_le H2%Z.leb_le].
  right. eexists. split; [done | lia].
Qed.

Lemma ParseUint_loop_decimal (s : string) (n : Z) :
  (0 ≤ n ≤ maxUint64)%Z →
  match decimal s n with
  | Some v =>
      ParseUint_loop s n =
        if (v <=? maxUint64)%Z then (v, None) else (maxUint64, Some ErrRange)
  | None => snd (ParseUint_loop s n) ≠ None
  end.
Proof.
  revert n. induction s as [|c s IH]; intros n Hn; cbn [decimal ParseUint_loop].
  - destruct (Z.leb_spec n maxUint64); [done | lia].
  - destruct (is_digit c) eqn:Hc.
    + rewrite (digit_val_digit c Hc).
      unfold is_digit in Hc. apply andb_true_iff in Hc as [H1%Z.leb_le H2%Z.leb_le].
      set (d := (byte_of c - 48)%Z) in *.
      unfold base, bitSize, maxUint64, uint64 in *.
      change (Z.shiftl 1 64) with (2 ^ 64)%Z.
      change ((2 ^ 64) mod 2 ^ 64)%Z with 0%Z.
      change ((0 - 1) mod 2 ^ 64)%Z with (2 ^ 64 - 1)%Z.
      change ((2 ^ 64 - 1) / 10 + 1)%Z with 1844674407370955162%Z.
      change (2 ^ 64)%Z with 18446744073709551616%Z in *.
      destruct (Z.geb_spec d 10); [lia|].
      destruct (Z.geb_spec n 1844674407370955162).
      * destruct (decimal s (n * 10 + d)) as [v|] eqn:Hv; [|done].
        apply decimal_ge in Hv; [|lia].
        destruct (Z.leb_spec v (18446744073709551616 - 1)); [lia | done].
      * rewrite (Z.mod_small (n * 10)) by lia.
        destruct (Z.ltb_spec (n * 10 + d) 18446744073709551616) as [Hsm|Hbig].
        -- rewrite (Z.mod_small (n * 10 + d)) by lia.
           destruct (Z.ltb_spec (n * 10 + d) (n * 10)); [lia|].
           destruct (Z.gtb_spec (n * 10 + d) (18446744073709551616 - 1)); [lia|].
           cbn [orb]. apply IH. lia.
        -- assert (Hm : ((n * 10 + d) mod 18446744073709551616
                         = n * 10 + d - 18446744073709551616)%Z).
           { symmetry. apply Z.mod_unique with 1%Z; lia. }
           rewrite Hm.
           destruct (Z.ltb_spec (n * 10 + d - 18446744073709551616) (n * 10)); [|lia].
           cbn [orb].
           destruct (decimal s (n * 10 + d)) as [v|] eqn:Hv; [|done].
           apply decimal_ge in Hv; [|lia].
           destruct (Z.leb_spec v (18446744073709551616 - 1)); [lia | done].
    + destruct (digit_val_other c Hc) as [->|(d & -> & Hd)]; [done|].
      unfold base. destruct (Z.geb_spec d 10); [done | lia].
Qed.

Lemma ParseUint_loop_range (s : string) (n : Z) :
  snd (ParseUint_loop s n) = Some ErrRange → fst (ParseUint_loop s n) = maxUint64.
Proof.
  revert n. induction s as [|c s IH]; intros n; cbn [ParseUint_loop]; [done|].
  destruct (digit_val (byte_of c)) as [d|]; [|done].
  destruct (d >=? base)%Z; [done|].
  destruct (n >=? maxUint64 / 10 + 1)%Z; [done|].
  destruct (_ || _); [done|]. apply IH.
Qed.

Lemma ParseUint_decimal (s : string) :
  s ≠ EmptyString →
  match decimal s 0 with
  | Some v =>
      (0 ≤ v)%Z ∧
      ParseUint s = if (v <=? maxUint64)%Z then (v, None) else (maxUint64, Some ErrRange)
  | None =>
      snd (ParseUint s) = Some ErrSyntax ∨
      (snd (ParseUint s) = Some ErrRange ∧ fst (ParseUint s) = maxUint64)
  end.
Proof.
  intros Hs. assert (HP : ParseUint s = ParseUint_loop s 0) by by destruct s.
  rewrite HP. pose proof (ParseUint_loop_decimal s 0) as H.
  destruct (decimal s 0) as [v|] eqn:Hv.
  - split; [by eapply decimal_ge | apply H; unfold maxUint64; lia].
  - pose proof (ParseUint_loop_range s 0) as Hr.
    destruct (ParseUint_loop s 0) as [un [[]|]]; cbn in *.
    + by left.
    + right. split; [done | by apply Hr].
    + exfalso. apply H; [unfold maxUint64; lia | done].
Qed.

Lemma ParseInt_signed (c : ascii) (rest : string) :
  ParseInt (String c rest) =
    signed (bool_decide (c = "-"%char))
      (ParseUint (if bool_decide (c = "+"%char) then rest
                  else if bool_decide (c = "-"%char) then rest
                  else String c rest)).
Proof. unfold ParseInt, signed. by destruct (ParseUint _) as [un [[]|]]. Qed.

Lemma signed_decimal (neg : bool) (u : Z) :
  (0 ≤ u)%Z →
  let v := if neg then (- u)%Z else u in
  let res := signed neg (if (u <=? maxUint64)%Z then (u, None)
                         else (maxUint64, Some ErrRange)) in
  if in_int64 v then res = (v, None) else snd res = Some ErrRange.
Proof.
  intros Hu v res. subst v res. unfold signed, in_int64, maxUint64, uint64, int64, bitSize.
  change (Z.shiftl 1 (64 - 1)) with (2 ^ 63)%Z.
  change ((2 ^ 63) mod 2 ^ 64)%Z with (2 ^ 63)%Z.
  change (2 ^ 64)%Z with 18446744073709551616%Z.
  change (2 ^ 63)%Z with 9223372036854775808%Z.
  assert (Hmod : ((9223372036854775808 + 9223372036854775808)
                    mod 18446744073709551616 = 0)%Z) by done.
  destruct neg; cbn [negb andb];
    repeat match goal with
      | |- context [(?a <=? ?b)%Z] => destruct (Z.leb_spec a b)
      | |- context [(?a >=? ?b)%Z] => destruct (Z.geb_spec a b)
      | |- context [(?a >? ?b)%Z] => destruct (Z.gtb_spec a b)
      end; cbn [andb snd]; try lia; try done; f_equal.
  - destruct (Z.eq_dec u 9223372036854775808%Z) as [->|Hne]; [done|].
    rewrite (Z.mod_small (u + 9223372036854775808)%Z) by lia.
    replace (u + 9223372036854775808 - 9223372036854775808)%Z with u by lia.
    rewrite Z.mod_small by lia. lia.
  - rewrite Z.mod_small by lia. lia.
Qed.

Lemma signed_error (neg : bool) (res : Z * option NumError) :
  snd res = Some ErrSyntax ∨ (snd res = Some ErrRange ∧ fst res = maxUint64) →
  snd (signed neg res) ≠ None.
Proof.
  destruct res as [un err]. cbn [fst snd]. intros [->|[-> ->]]; [done|].
  by destruct neg.
Qed.

Lemma ParseInt_numeral (s : string) :
  match numeral s with
  | Some v =>
      if in_int64 v then ParseInt s = (v, None)
      else snd (ParseInt s) = Some ErrRange
  | None => snd (ParseInt s) ≠ None
  end.
Proof.
  destruct s as [|c rest]; [done|].
  rewrite ParseInt_signed. unfold numeral.
  destruct (bool_decide (c = "+"%char)) eqn:Hplus.
  { apply bool_decide_eq_true in Hplus as ->.
    rewrite (bool_decide_eq_false_2 ("+"%char = "-"%char)) by done.
    destruct rest as [|c' rest']; [done|].
    pose proof (ParseUint_decimal (String c' rest')) as H.
    destruct (decimal (String c' rest') 0) as [v|].
    - destruct H as [Hv ->]; [done|]. by apply (signed_decimal false).
    - apply signed_error. by apply H. }
  destruct (bool_decide (c = "-"%char)) eqn:Hminus.
  { destruct rest as [|c' rest']; [done|].
    pose proof (ParseUint_decimal (String c' rest')) as H.
    destruct (decimal (String c' rest') 0) as [v|]; cbn [fmap option_fmap option_map].
    - destruct H as [Hv ->]; [done|]. by apply (signed_decimal true).
    - apply signed_error. by apply H. }
  pose proof (ParseUint_decimal (String c rest)) as H.
  destruct (decimal (String c rest) 0) as [v|].
  - destruct H as [Hv ->]; [done|]. by apply (signed_decimal false).
  - apply signed_error. by apply H.
Qed.

(** [ParseInt] succeeds exactly on the numerals whose value fits [int64],
    and returns that value. *)
Lemma ParseInt_ok_iff (s : string) (v : Z) :
  ParseInt s = (v, None) ↔
  numeral s = Some v ∧ (- 2 ^ 63 ≤ v ≤ 2 ^ 63 - 1)%Z.
Proof.
  pose proof (ParseInt_numeral s) as H.
  destruct (numeral s) as [w|].
  - destruct (in_int64 w) eqn:Hw.
    + unfold in_int64 in Hw. apply andb_true_iff in Hw as [H1%Z.leb_le H2%Z.leb_le].
      rewrite H. split.
      * intros [= <-]. by split; [|lia].
      * by intros [[= ->] _].
    + split.
      * intros Hp. rewrite Hp in H. done.
      * intros [[= ->] Hr]. unfold in_int64 in Hw.
        apply andb_false_iff in Hw as [?%Z.leb_gt|?%Z.leb_gt]; lia.
  - split; [|by intros [? _]]. intros Hp. by rewrite Hp in H.
Qed.

(** ** The redemption guard, one call *)

Lemma IsEligible_eq (rm : RedemptionManager) (team : string) :
  IsEligible rm team = (rm, bool_decide (redemptions rm !! team = None)).
Proof.
  unfold IsEligible. by destruct (redemptions rm !! team).
Qed.

Lemma AddRedemption_taken (rm : RedemptionManager) (team : string) (now : Z) :
  is_Some (redemptions rm !! team) →
  AddRedemption rm team now = (rm, (None, Some already_redeemed)).
Proof. intros [r Hr]. unfold AddRedemption. by rewrite Hr. Qed.

Lemma AddRedemption_free (rm : RedemptionManager) (team : string) (now : Z) :
  redemptions rm !! team = None →
  AddRedemption rm team now =
    ({| redemptions := <[team := Redemption.mk team now]> (redemptions rm) |},
     (Some (Redemption.mk team now), None)).
Proof. intros Hr. unfold AddRedemption. by rewrite Hr. Qed.

(** C3: [IsEligible] answers [true] exactly when the store has no record for
    the team, and it returns the manager it was given. *)
Theorem IsEligible_spec (rm : RedemptionManager) (team : string) :
  (snd (IsEligible rm team) = true ↔ redemptions rm !! team = None) ∧
  fst (IsEligible rm team) = rm.
Proof.
  rewrite IsEligible_eq. simpl. split; [|done].
  apply bool_decide_eq_true.
Qed.

(** C9: [AddRedemption] returns a record and no error exactly when
    [IsEligible] answers [true] in the same state. *)
Theorem AddRedemption_succeeds_iff_eligible
  (rm : RedemptionManager) (team : string) (now : Z) :
  (∃ r, snd (AddRedemption rm team now) = (Some r, None)) ↔
  snd (IsEligible rm team) = true.
Proof.
  rewrite IsEligible_eq. simpl. rewrite bool_decide_eq_true.
  destruct (redemptions rm !! team) as [r0|] eqn:E.
  - rewrite AddRedemption_taken by eauto. simpl. split; [|done].
    by intros [r Hr].
  - rewrite AddRedemption_free by done. simpl. split; [done|]. eauto.
Qed.

(** C2: [AddRedemption] fails exactly when the team has a record, with the
    error [already_redeemed], no record returned and the manager unchanged;
    otherwise it returns the new record, for this team, and the store is
    the old one with that record added under the team and nothing else
    changed.  A second call for the same team then fails and leaves the
    record of the first in place. *)
Theorem AddRedemption_spec (rm : RedemptionManager) (team : string) (now now2 : Z) :
  let m := redemptions rm in
  let R := AddRedemption rm team now in
  let m' := redemptions (fst R) in
  (snd (snd R) ≠ None ↔ is_Some (m !! team)) ∧
  (snd (snd R) = Some already_redeemed ↔ is_Some (m !! team)) ∧
  (is_Some (m !! team) → fst R = rm ∧ fst (snd R) = None) ∧
  (m !! team = None →
     ∃ r, snd R = (Some r, None) ∧
          Redemption.TeamName r = team ∧ Redemption.RedeemedAt r = now ∧
          m' = <[team := r]> m ∧
          m' !! team = Some r ∧
          (∀ k, k ≠ team → m' !! k = m !! k) ∧
          size m' = S (size m) ∧
          let R2 := AddRedemption (fst R) team now2 in
          snd R2 = (None, Some already_redeemed) ∧
          fst R2 = fst R ∧
          redemptions (fst R2) !! team = Some r).
Proof.
  intros m R m'. subst m R m'.
  destruct (redemptions rm !! team) as [r0|] eqn:E.
  - rewrite AddRedemption_taken by eauto. simpl.
    repeat split; eauto; done.
  - rewrite AddRedemption_free by done. simpl.
    split; [split; [done | by intros [? ?]]|].
    split; [split; [done | by intros [? ?]]|].
    split; [by intros [? ?]|].
    intros _. exists (Redemption.mk team now).
    assert (Hin : <[team := Redemption.mk team now]> (redemptions rm) !! team
                  = Some (Redemption.mk team now)) by apply lookup_insert_eq.
    repeat split; try done.
    + intros k Hk. by apply lookup_insert_ne.
    + by apply map_size_insert_None.
    + rewrite AddRedemption_taken; [done | simpl; eauto].
    + rewrite AddRedemption_taken; [done | simpl; eauto].
    + rewrite AddRedemption_taken; [done | simpl; eauto].
Qed.

(** ** The redemption guard, sequences of calls *)

Lemma exec_fst (rm : RedemptionManager) (c : call) :
  fst (exec rm c) =
    match c with
    | CallIsEligible _ => rm
    | CallAddRedemption t now => fst (AddRedemption rm t now)
    end.
Proof.
  destruct c as [t|t now]; unfold exec.
  - by rewrite IsEligible_eq.
  - by destruct (AddRedemption rm t now).
Qed.

Lemma exec_snd (rm : RedemptionManager) (c : call) :
  snd (exec rm c) =
    match c with
    | CallIsEligible t => RetIsEligible (snd (IsEligible rm t))
    | CallAddRedemption t now => RetAddRedemption (snd (AddRedemption rm t now))
    end.
Proof.
  destruct c as [t|t now]; unfold exec.
  - by rewrite IsEligible_eq.
  - by destruct (AddRedemption rm t now).
Qed.

Lemma exec_keyed (rm : RedemptionManager) (c : call) :
  keyed rm → keyed (fst (exec rm c)).
Proof.
  intros Hk. rewrite exec_fst. destruct c as [t|t now]; [done|].
  destruct (redemptions rm !! t) as [r0|] eqn:E.
  - by rewrite AddRedemption_taken by eauto.
  - rewrite AddRedemption_free by done. intros k r. cbn [fst redemptions].
    rewrite lookup_insert. case_decide as Hkt.
    + intros [= <-]. done.
    + apply Hk.
Qed.

Lemma exec_grows (rm : RedemptionManager) (c : call) :
  redemptions rm ⊆ redemptions (fst (exec rm c)).
Proof.
  rewrite exec_fst. destruct c as [t|t now]; [done|].
  destruct (redemptions rm !! t) as [r0|] eqn:E.
  - by rewrite AddRedemption_taken by eauto.
  - rewrite AddRedemption_free by done. cbn [fst redemptions].
    by apply insert_subseteq.
Qed.

Lemma run_keyed (cs : list call) (rm : RedemptionManager) :
  keyed rm → keyed (run rm cs).
Proof.
  revert rm. induction cs as [|c cs IH]; intros rm Hk; simpl; [done|].
  apply IH. by apply exec_keyed.
Qed.

Lemma run_grows (cs : list call) (rm : RedemptionManager) :
  redemptions rm ⊆ redemptions (run rm cs).
Proof.
  revert rm. induction cs as [|c cs IH]; intros rm; simpl; [done|].
  etrans; [apply exec_grows | apply IH].
Qed.

Lemma run_app (cs cs' : list call) (rm : RedemptionManager) :
  run rm (cs ++ cs') = run (run rm cs) cs'.
Proof. revert rm. induction cs as [|c cs IH]; intros rm; simpl; [done | apply IH]. Qed.

Lemma trace_app (cs cs' : list call) (rm : RedemptionManager) :
  trace rm (cs ++ cs') = trace rm cs ++ trace (run rm cs) cs'.
Proof.
  revert rm. induction cs as [|c cs IH]; intros rm; simpl; [done|].
  by rewrite IH.
Qed.

Lemma New_keyed : keyed NewRedemptionManager.
Proof. intros k r. simpl. by rewrite lookup_empty. Qed.

Lemma NoDup_all_equal_length {A : Type} (l : list A) :
  NoDup l → (∀ x y, x ∈ l → y ∈ l → x = y) → length l ≤ 1.
Proof.
  intros Hnd Heq. destruct l as [|a [|b l]]; simpl; [lia | lia |].
  exfalso. apply NoDup_cons in Hnd as [Hnotin _]. apply Hnotin.
  rewrite (Heq a b); [left | left | right; left].
Qed.

Lemma elem_of_records_of (rm : RedemptionManager) (team k : string) (r : Redemption.t) :
  (k, r) ∈ records_of rm team ↔
  redemptions rm !! k = Some r ∧ Redemption.TeamName r = team.
Proof.
  unfold records_of. rewrite list_elem_of_filter, elem_of_map_to_list. simpl. tauto.
Qed.

Lemma keyed_records_of (rm : RedemptionManager) (team : string) :
  keyed rm → length (records_of rm team) ≤ 1.
Proof.
  intros Hk. apply NoDup_all_equal_length.
  - unfold records_of. apply NoDup_filter, NoDup_map_to_list.
  - intros [k1 r1] [k2 r2].
    rewrite !elem_of_records_of. intros [H1 T1] [H2 T2].
    pose proof (Hk _ _ H1). pose proof (Hk _ _ H2). congruence.
Qed.

(** C1: in the state after any sequence of calls on a new manager, a team
    has at most one record, found under the team's own key; and whatever
    calls follow, every record of that state is still there, unchanged. *)
Theorem store_one_record_per_team_and_only_grows
  (cs cs' : list call) (team : string) :
  let rm := run NewRedemptionManager cs in
  let rm' := run rm cs' in
  length (records_of rm team) ≤ 1 ∧
  (∀ k r, (k, r) ∈ records_of rm team ↔ k = team ∧ redemptions rm !! team = Some r) ∧
  (∀ r, redemptions rm !! team = Some r → redemptions rm' !! team = Some r) ∧
  redemptions rm ⊆ redemptions rm' ∧
  size (redemptions rm) ≤ size (redemptions rm').
Proof.
  intros rm rm'.
  assert (Hk : keyed rm) by apply run_keyed, New_keyed.
  assert (Hsub : redemptions rm ⊆ redemptions rm') by apply run_grows.
  split; [by apply keyed_records_of|].
  split; [|split; [|split]].
  - intros k r. rewrite elem_of_records_of. split.
    + intros [H1 H2]. pose proof (Hk _ _ H1). simplify_eq. done.
    + intros [-> H1]. split; [done | by apply Hk].
  - intros r Hr. by eapply lookup_weaken.
  - done.
  - by apply map_subseteq_size.
Qed.

(** What one call does to the eligibility of [team], and whether it counts
    as a redemption of [team]. *)
Lemma exec_eligible (rm : RedemptionManager) (c : call) (team : string) :
  snd (IsEligible (fst (exec rm c)) team) =
    snd (IsEligible rm team) && negb (redeems team (c, snd (exec rm c))).
Proof.
  rewrite exec_fst, exec_snd, !IsEligible_eq. cbn [snd].
  destruct c as [t|t now]; cbn [redeems].
  - by rewrite andb_true_r.
  - destruct (redemptions rm !! t) as [r0|] eqn:E.
    + rewrite AddRedemption_taken by eauto. cbn [fst snd].
      by rewrite andb_true_r.
    + rewrite AddRedemption_free by done. cbn [fst snd redemptions].
      destruct (decide (t = team)) as [->|Hne].
      * rewrite lookup_insert_eq, E.
        rewrite (bool_decide_eq_true_2 (team = team)) by done. done.
      * rewrite lookup_insert_ne by done.
        rewrite (bool_decide_eq_false_2 (t = team)) by done.
        by rewrite andb_true_r.
Qed.

Lemma run_eligible (cs : list call) (rm : RedemptionManager) (team : string) :
  snd (IsEligible (run rm cs) team) =
    snd (IsEligible rm team) && negb (existsb (redeems team) (trace rm cs)).
Proof.
  revert rm. induction cs as [|c cs IH]; intros rm; cbn [run trace existsb].
  - by rewrite andb_true_r.
  - rewrite IH, exec_eligible, negb_orb. by rewrite andb_assoc.
Qed.

Lemma redeems_needs_eligible (rm : RedemptionManager) (c : call) (team : string) :
  redeems team (c, snd (exec rm c)) = true → snd (IsEligible rm team) = true.
Proof.
  rewrite exec_snd, IsEligible_eq. cbn [snd].
  destruct c as [t|t now]; cbn [redeems]; [done|].
  destruct (redemptions rm !! t) as [r0|] eqn:E.
  - by rewrite AddRedemption_taken by eauto.
  - rewrite AddRedemption_free by done. cbn [snd].
    intros ->%bool_decide_eq_true. by apply bool_decide_eq_true.
Qed.

Lemma trace_redeems_bound (cs : list call) (rm : RedemptionManager) (team : string) :
  length (filter (λ e, redeems team e = true) (trace rm cs)) ≤
    (if snd (IsEligible rm team) then 1 else 0).
Proof.
  revert rm. induction cs as [|c cs IH]; intros rm; cbn [trace].
  - rewrite filter_nil. cbn [length]. destruct (snd (IsEligible rm team)); lia.
  - specialize (IH (fst (exec rm c))). rewrite exec_eligible in IH.
    destruct (redeems team (c, snd (exec rm c))) eqn:Er.
    + rewrite filter_cons_True by done. cbn [length].
      rewrite (redeems_needs_eligible _ _ _ Er) in *.
      simpl in IH. lia.
    + rewrite filter_cons_False by (by rewrite Er).
      rewrite andb_true_r in IH. done.
Qed.

(** C4: after any sequence of calls on a new manager, [IsEligible team] is
    [true] exactly when no call so far was a successful [AddRedemption
    team]; a whole run holds at most one such call; and once [IsEligible
    team] is [false] it is [false] after every further sequence of calls. *)
Theorem eligibility_is_one_way (team : string) (cs cs' : list call) :
  let rm := run NewRedemptionManager cs in
  (snd (IsEligible rm team) = true ↔
     existsb (redeems team) (trace NewRedemptionManager cs) = false) ∧
  snd (IsEligible NewRedemptionManager team) = true ∧
  length (filter (λ e, redeems team e = true)
            (trace NewRedemptionManager (cs ++ cs'))) ≤ 1 ∧
  (snd (IsEligible rm team) = false →
     snd (IsEligible (run rm cs') team) = false).
Proof.
  intros rm. subst rm.
  assert (Hnew : snd (IsEligible NewRedemptionManager team) = true).
  { rewrite IsEligible_eq. cbn [snd NewRedemptionManager redemptions].
    by rewrite lookup_empty. }
  split; [|split; [done|split]].
  - rewrite run_eligible, Hnew. cbn [andb]. apply negb_true_iff.
  - pose proof (trace_redeems_bound (cs ++ cs') NewRedemptionManager team) as H.
    rewrite Hnew in H. done.
  - intros H. rewrite run_eligible, H. done.
Qed.

(** ** The mapping loader *)

Lemma row_mapping_None (record : list string) :
  row_mapping record = None ↔
  length record < 3 ∨ snd (ParseInt (nth 2 record ""%string)) ≠ None.
Proof.
  destruct record as [|f0 [|f1 [|f2 rest]]]; cbn [row_mapping length nth];
    try (split; [intros _; left; lia | done]).
  destruct (ParseInt f2) as [createdAt [e|]]; cbn [snd].
  - split; [by right | done].
  - split; [done | intros [?|?]; [lia | done]].
Qed.

Lemma row_mapping_Some (record : list string) (m : StaffMapping.t) :
  row_mapping record = Some m ↔
  3 ≤ length record ∧
  ParseInt (nth 2 record ""%string) = (StaffMapping.CreatedAt m, None) ∧
  StaffMapping.StaffPassID m = nth 0 record ""%string ∧
  StaffMapping.TeamName m = nth 1 record ""%string.
Proof.
  destruct record as [|f0 [|f1 [|f2 rest]]]; cbn [row_mapping length nth];
    try (split; [done | intros [? _]; lia]).
  destruct (ParseInt f2) as [createdAt [e|]].
  - split; [done | by intros (_ & ? & _)].
  - split.
    + intros [= <-]. cbn. repeat split; lia.
    + intros (_ & [= ->] & H0 & H1). destruct m; cbn in *. by subst.
Qed.

Lemma load_row_data (mappings : list StaffMapping.t) (i : nat) (record : list string) :
  load_row mappings (S i) record = mappings ++ option_list (row_mapping record).
Proof.
  unfold load_row. cbn [Nat.eqb].
  destruct record as [|f0 [|f1 [|f2 rest]]]; cbn [length Nat.ltb Nat.leb row_mapping nth];
    try (by rewrite app_nil_r).
  destruct (ParseInt f2) as [createdAt [e|]]; cbn [option_list].
  - by rewrite app_nil_r.
  - done.
Qed.

Lemma load_rows_data (records : list (list string)) (i : nat)
  (mappings : list StaffMapping.t) :
  load_rows (S i) records mappings = mappings ++ omap row_mapping records.
Proof.
  revert i mappings.
  induction records as [|record records IH]; intros i mappings; cbn [load_rows].
  - simpl. by rewrite app_nil_r.
  - rewrite IH, load_row_data, <- app_assoc. f_equal.
    simpl. by destruct (row_mapping record).
Qed.

Lemma load_rows_valid_rows (records : list (list string)) :
  load_rows 0 records [] = valid_rows records.
Proof.
  destruct records as [|header records]; [done|].
  cbn [load_rows]. unfold load_row at 1. cbn [Nat.eqb].
  by rewrite load_rows_data.
Qed.

Lemma valid_rows_app (header : list string) (before after : list (list string)) :
  valid_rows (header :: before ++ after) =
    valid_rows (header :: before) ++ valid_rows (header :: after).
Proof. unfold valid_rows. cbn [tail]. apply omap_app. Qed.

(** A row is loaded exactly when it has three fields or more and the third is
    a numeral whose value fits [int64]. *)
Lemma row_mapping_numeral (f0 f1 f2 : string) (rest : list string) (m : StaffMapping.t) :
  row_mapping (f0 :: f1 :: f2 :: rest) = Some m ↔
  m = StaffMapping.mk f0 f1 (StaffMapping.CreatedAt m) ∧
  numeral f2 = Some (StaffMapping.CreatedAt m) ∧
  (- 2 ^ 63 ≤ StaffMapping.CreatedAt m ≤ 2 ^ 63 - 1)%Z.
Proof.
  rewrite <- ParseInt_ok_iff. cbn [row_mapping].
  destruct (ParseInt f2) as [createdAt [e|]].
  - split; [done | by intros [_ ?]].
  - split.
    + by intros [= <-].
    + intros [-> [= ->]]. done.
Qed.

Example ParseInt_samples :
  ParseInt "1623772799000" = (1623772799000%Z, None) ∧
  ParseInt "+5" = (5%Z, None) ∧
  ParseInt "-0012" = ((-12)%Z, None) ∧
  ParseInt "-9223372036854775808" = ((-9223372036854775808)%Z, None) ∧
  ParseInt "9223372036854775808" = (9223372036854775807%Z, Some ErrRange) ∧
  ParseInt "99999999999999999999" = (9223372036854775807%Z, Some ErrRange) ∧
  ParseInt "" = (0%Z, Some ErrSyntax) ∧
  ParseInt "-" = (0%Z, Some ErrSyntax) ∧
  ParseInt "12a" = (0%Z, Some ErrSyntax) ∧
  ParseInt " 12" = (0%Z, Some ErrSyntax) ∧
  ParseInt "1_000" = (0%Z, Some ErrSyntax) ∧
  ParseInt "1.5e3" = (0%Z, Some ErrSyntax).
Proof. repeat split; reflexivity. Qed.

Section LoaderProperties.

Variable File : Type.
Variable os_Open : string → File * option error.
Variable csv_ReadAll : File → list (list string) * option error.

Lemma Load_read (filePath : string) (file : File) (records : list (list string)) :
  os_Open filePath = (file, None) →
  csv_ReadAll file = (records, None) →
  LoadMappingFromCSV File os_Open csv_ReadAll filePath = (valid_rows records, None).
Proof.
  intros Ho Hr. unfold LoadMappingFromCSV. rewrite Ho, Hr.
  by rewrite load_rows_valid_rows.
Qed.

(** C6: when the file opens and the reader returns [records], the loader
    returns, without error, the records of the rows after the first that
    have at least three fields and a third field that parses, in the order
    of the rows; a row is dropped exactly when it has fewer than three
    fields or its third field does not parse. *)
Theorem LoadMappingFromCSV_valid_rows
  (filePath : string) (file : File) (records : list (list string)) :
  os_Open filePath = (file, None) →
  csv_ReadAll file = (records, None) →
  LoadMappingFromCSV File os_Open csv_ReadAll filePath = (omap row_mapping (tail records), None) ∧
  (∀ record, row_mapping record = None ↔
     length record < 3 ∨ snd (ParseInt (nth 2 record ""%string)) ≠ None) ∧
  (∀ record m, row_mapping record = Some m ↔
     3 ≤ length record ∧
     ParseInt (nth 2 record ""%string) = (StaffMapping.CreatedAt m, None) ∧
     StaffMapping.StaffPassID m = nth 0 record ""%string ∧
     StaffMapping.TeamName m = nth 1 record ""%string).
Proof.
  intros Ho Hr. split; [by apply (Load_read _ file)|].
  split; [apply row_mapping_None | apply row_mapping_Some].
Qed.

(** Of a table the reader returns, a row with more than three fields whose
    third field parses contributes the record of its first three fields, at
    its place among the other rows. *)
Lemma Load_extra_fields
  (filePath : string) (file : File) (header : list string)
  (before after : list (list string))
  (f0 f1 f2 f3 : string) (extra : list string) (createdAt : Z) :
  os_Open filePath = (file, None) →
  csv_ReadAll file =
    (header :: before ++ (f0 :: f1 :: f2 :: f3 :: extra) :: after, None) →
  ParseInt f2 = (createdAt, None) →
  LoadMappingFromCSV File os_Open csv_ReadAll filePath =
    (valid_rows (header :: before)
       ++ StaffMapping.mk f0 f1 createdAt :: valid_rows (header :: after),
     None).
Proof.
  intros Ho Hr Hp. rewrite (Load_read _ _ _ Ho Hr).
  rewrite valid_rows_app. do 2 f_equal.
  unfold valid_rows. cbn [tail omap list_omap row_mapping]. by rewrite Hp.
Qed.

End LoaderProperties.

Example sample_load :
  LoadMappingFromCSV _ sample_Open sample_ReadAll "mapping.csv" =
    ([ StaffMapping.mk "STAFF_H123804820G" "BASS" 1623772799000;
       StaffMapping.mk "MANAGER_T999888420B" "RUST" 1623772799000;
       StaffMapping.mk "BOSS_T000000001P" "RUST" 1623872111000 ], None).
Proof. reflexivity. Qed.

Example sample_load_missing :
  LoadMappingFromCSV _ sample_Open sample_ReadAll "absent.csv" =
    ([], Some (fmt_Errorf "unable to open CSV file: %w"
                 (errors_New "open: no such file or directory"))).
Proof. reflexivity. Qed.

Lemma LoadMappingFromCSV_valid_rows_witness :
  LoadMappingFromCSV _ sample_Open sample_ReadAll "mapping.csv" =
    (omap row_mapping (tail sample_records), None) ∧
  (∀ record, row_mapping record = None ↔
     length record < 3 ∨ snd (ParseInt (nth 2 record ""%string)) ≠ None) ∧
  (∀ record m, row_mapping record = Some m ↔
     3 ≤ length record ∧
     ParseInt (nth 2 record ""%string) = (StaffMapping.CreatedAt m, None) ∧
     StaffMapping.StaffPassID m = nth 0 record ""%string ∧
     StaffMapping.TeamName m = nth 1 record ""%string).
Proof.
  apply (LoadMappingFromCSV_valid_rows _ sample_Open sample_ReadAll
           "mapping.csv" sample_records sample_records); reflexivity.
Defined.

(** *** The loader on the reader of [csv.NewReader] *)

(** The check of the number of fields, when the expected number is one the
    reader has set itself. *)
Lemma check_fields_nat (n : nat) (recLine : Z) (dst : list string) :
  csv.check_fields (Z.of_nat n) recLine dst =
    if bool_decide (n = 0 ∨ length dst = n) then (Z.of_nat (length dst), None)
    else (Z.of_nat n, Some (csv_ParseError recLine recLine 1 ErrFieldCount)).
Proof.
  unfold csv.check_fields.
  destruct (Z.gtb_spec (Z.of_nat n) 0) as [Hpos|Hle].
  - case_bool_decide as Hne; case_bool_decide as Hor.
    + exfalso. destruct Hor as [->|<-]; [lia | done].
    + done.
    + f_equal. destruct Hor as [->|<-]; [lia | done].
    + exfalso. apply Hor. right. lia.
  - assert (n = 0) as -> by lia. cbn. by rewrite bool_decide_eq_true_2 by (by left).
Qed.

(** Records that all have [n] fields pass the check. *)
Lemma ReadAll_loop_same (n : nat) (raw : list (Z * list string)) :
  Forall (λ r, length r.2 = n) raw →
  ∀ (fpr : nat) (acc : list (list string)),
    fpr = 0 ∨ fpr = n →
    csv.ReadAll_loop (Z.of_nat fpr) raw None acc = (acc ++ raw.*2, None).
Proof.
  induction 1 as [|[recLine dst] raw Hdst _ IH]; intros fpr acc Hfpr.
  - cbn. by rewrite app_nil_r.
  - cbn [csv.ReadAll_loop]. rewrite check_fields_nat.
    cbn [snd] in Hdst.
    rewrite bool_decide_eq_true_2 by (destruct Hfpr; [by left | right; congruence]).
    rewrite IH by (right; done).
    by rewrite <- app_assoc.
Qed.

(** A read that returns an error returns no record. *)
Lemma ReadAll_loop_error (raw : list (Z * list string)) (errRead : option error) :
  ∀ (fpr : Z) (acc : list (list string)),
    snd (csv.ReadAll_loop fpr raw errRead acc) ≠ None →
    fst (csv.ReadAll_loop fpr raw errRead acc) = [].
Proof.
  induction raw as [|[recLine dst] raw IH]; intros fpr acc.
  - cbn. by destruct errRead.
  - cbn [csv.ReadAll_loop].
    destruct (csv.check_fields fpr recLine dst) as [fpr' [err|]]; [done|].
    apply IH.
Qed.

(** A read that returns no error has met no error and returns all the
    records, which have the expected number of fields. *)
Lemma ReadAll_loop_ok (raw : list (Z * list string)) (errRead : option error) :
  Forall (λ r, r.2 ≠ []) raw →
  ∀ (fpr : nat) (acc records : list (list string)),
    csv.ReadAll_loop (Z.of_nat fpr) raw errRead acc = (records, None) →
    errRead = None ∧ records = acc ++ raw.*2 ∧
    (0 < fpr → Forall (λ r, length r.2 = fpr) raw) ∧
    (fpr = 0 → same_fields raw.*2).
Proof.
  induction 1 as [|[recLine dst] raw Hdst _ IH]; intros fpr acc records.
  - cbn. destruct errRead; [done|]. intros [= <-]. rewrite app_nil_r.
    repeat split; by constructor.
  - cbn [csv.ReadAll_loop]. rewrite check_fields_nat.
    case_bool_decide as Hfpr; [|done].
    intros Hloop. apply IH in Hloop as (-> & -> & Hpos & _).
    cbn [snd] in Hdst.
    assert (0 < length dst) as Hlen by (destruct dst; [done | cbn; lia]).
    specialize (Hpos Hlen).
    split; [done|]. split; [by rewrite <- app_assoc|].
    split.
    + intros Hf. destruct Hfpr as [->|Hfpr]; [lia|]. subst fpr.
      by constructor.
    + intros _. unfold same_fields. cbn [fmap list_fmap hd snd].
      constructor; [done|]. by rewrite Forall_fmap.
Qed.

Section DefaultReader.

Variable File : Type.
Variable os_Open : string → File * option error.
Variable read_records : File → list (Z * list string) * option error.

(** The reader returns the records of a file it can split whose records
    have the same number of fields. *)
Lemma ReadAll_same_fields (file : File) (raw : list (Z * list string)) :
  read_records file = (raw, None) →
  same_fields raw.*2 →
  csv.ReadAll File read_records file = (raw.*2, None).
Proof.
  intros Hr Hsame. unfold csv.ReadAll. rewrite Hr.
  apply (ReadAll_loop_same (length (hd [] raw.*2)) raw) with (fpr := 0) (acc := []);
    [|by left].
  unfold same_fields in Hsame. by rewrite Forall_fmap in Hsame.
Qed.

(** C10: when the file opens, the reader can split it, and its records,
    the header included, all have the same number of fields, a data row with
    more than three fields whose third field parses is kept: the loader
    returns no error, and the row contributes the record of its first three
    fields, at its place among the other rows, whatever its further fields
    are. *)
Theorem LoadMappingFromCSV_extra_fields_same_fields
  (filePath : string) (file : File) (raw : list (Z * list string))
  (header : list string) (before after : list (list string))
  (f0 f1 f2 f3 : string) (extra : list string) (createdAt : Z) :
  os_Open filePath = (file, None) →
  read_records file = (raw, None) →
  raw.*2 = header :: before ++ (f0 :: f1 :: f2 :: f3 :: extra) :: after →
  same_fields raw.*2 →
  ParseInt f2 = (createdAt, None) →
  LoadMappingFromCSV File os_Open (csv.ReadAll File read_records) filePath =
    (valid_rows (header :: before)
       ++ StaffMapping.mk f0 f1 createdAt :: valid_rows (header :: after),
     None).
Proof.
  intros Ho Hr Hraw Hsame Hp.
  apply (Load_extra_fields File os_Open _ filePath file header before after
           f0 f1 f2 f3 extra createdAt); [done| |done].
  rewrite <- Hraw. by apply ReadAll_same_fields.
Qed.

(** X23: for a file that opens and whose records each have a field, the
    loader returns no error exactly when the reader can split the whole
    file and every record has as many fields as the first; it then returns
    the valid rows, and otherwise no record.  Under a first record of
    three fields or more, no record of a load without error has fewer. *)
Theorem LoadMappingFromCSV_same_fields
  (filePath : string) (file : File) (raw : list (Z * list string))
  (errRead : option error) :
  os_Open filePath = (file, None) →
  read_records file = (raw, errRead) →
  Forall (λ r, r.2 ≠ []) raw →
  let R := LoadMappingFromCSV File os_Open (csv.ReadAll File read_records) filePath in
  (snd R = None ↔ errRead = None ∧ same_fields raw.*2) ∧
  (snd R = None → R = (valid_rows raw.*2, None)) ∧
  (snd R ≠ None → fst R = []) ∧
  (snd R = None → 3 ≤ length (hd [] raw.*2) →
     Forall (λ record, 3 ≤ length record) raw.*2).
Proof.
  intros Ho Hr Hne R.
  assert (snd R = None → errRead = None ∧ same_fields raw.*2) as Hok.
  { subst R. unfold LoadMappingFromCSV. rewrite Ho.
    destruct (csv.ReadAll File read_records file) as [records [err|]] eqn:Hall;
      [done|].
    intros _. unfold csv.ReadAll in Hall. rewrite Hr in Hall.
    apply (ReadAll_loop_ok raw errRead Hne 0 []) in Hall as (-> & _ & _ & Hsame).
    split; [done|]. by apply Hsame. }
  assert (errRead = None ∧ same_fields raw.*2 → R = (valid_rows raw.*2, None))
    as Hload.
  { intros [-> Hsame]. subst R.
    apply (Load_read File os_Open _ filePath file); [done|].
    by apply ReadAll_same_fields. }
  split; [split; [done | by intros ->%Hload]|].
  split; [by intros ?%Hok%Hload|].
  split.
  - subst R. unfold LoadMappingFromCSV. rewrite Ho.
    by destruct (csv.ReadAll File read_records file) as [records [err|]].
  - intros [_ Hsame]%Hok Hhd. unfold same_fields in Hsame.
    eapply Forall_impl; [exact Hsame|]. cbn. intros record ->. done.
Qed.

End DefaultReader.

(** C7: on the file of the three lines
    [staff_pass_id,team_name,created_at], [STAFF_H123804820G,BASS] and
    [MANAGER_T999888420B,RUST,1623772799000] the loader returns no record
    and the error of the reader for the second line, and [main] prints that
    error and returns; the loop, on the three lines, would pass over the
    second and keep the third. *)
Theorem LoadMappingFromCSV_short_row_fails :
  sample_Open "short.csv" = (short_records, None) ∧
  LoadMappingFromCSV _ sample_Open sample_ReadAll "short.csv" =
    ([], Some (fmt_Errorf "error reading CSV file: %w"
                 (csv_ParseError 2 2 1 ErrFieldCount))) ∧
  Error (fmt_Errorf "error reading CSV file: %w"
           (csv_ParseError 2 2 1 ErrFieldCount)) =
    "error reading CSV file: record on line 2: wrong number of fields"%string ∧
  (∀ scans, main _ sample_Open sample_ReadAll ["main"; "short.csv"]%string scans =
     ([Println ["Error loading mapping file:";
                "error reading CSV file: record on line 2: wrong number of fields"]%string],
      Exited)) ∧
  load_rows 0 short_records [] =
    [StaffMapping.mk "MANAGER_T999888420B" "RUST" 1623772799000].
Proof. repeat split; reflexivity. Qed.

(** On the file of the three lines [staff_pass_id,team_name,created_at],
    [STAFF_H123804820G,BASS,1623772799000] and
    [BOSS_T000000001P,RUST,1623872111000,director,on leave], whose third
    line has five fields and a third field that parses, the loader returns
    the error of the reader for the third line and no record: the row is
    not kept. *)
Lemma LoadMappingFromCSV_extra_fields_counterexample :
  sample_Open "long.csv" = (long_records, None) ∧
  long_records !! 2 =
    Some ["BOSS_T000000001P"; "RUST"; "1623872111000"; "director"; "on leave"]%string ∧
  ParseInt "1623872111000" = (1623872111000%Z, None) ∧
  LoadMappingFromCSV _ sample_Open sample_ReadAll "long.csv" =
    ([], Some (fmt_Errorf "error reading CSV file: %w"
                 (csv_ParseError 3 3 1 ErrFieldCount))) ∧
  StaffMapping.mk "BOSS_T000000001P" "RUST" 1623872111000
    ∉ fst (LoadMappingFromCSV _ sample_Open sample_ReadAll "long.csv").
Proof.
  repeat split; try reflexivity.
  replace (LoadMappingFromCSV _ sample_Open sample_ReadAll "long.csv")
    with (@nil StaffMapping.t,
          Some (fmt_Errorf "error reading CSV file: %w"
                  (csv_ParseError 3 3 1 ErrFieldCount))) by reflexivity.
  apply not_elem_of_nil.
Qed.

Lemma LoadMappingFromCSV_extra_fields_same_fields_witness :
  LoadMappingFromCSV _ sample_Open sample_ReadAll "wide.csv" =
    (valid_rows (firstn 2 wide_records)
       ++ StaffMapping.mk "BOSS_T000000001P" "RUST" 1623872111000
       :: valid_rows (firstn 1 wide_records ++ skipn 3 wide_records),
     None).
Proof.
  apply (LoadMappingFromCSV_extra_fields_same_fields _ sample_Open
           sample_read_records "wide.csv" wide_records
           (fst (sample_read_records wide_records))
           ["staff_pass_id"; "team_name"; "created_at"; "role"; "note"]%string
           (firstn 1 (skipn 1 wide_records)) (skipn 3 wide_records)
           "BOSS_T000000001P" "RUST" "1623872111000" "director"
           ["on leave"%string] 1623872111000);
    try reflexivity.
  apply (bool_decide_unpack _). vm_compute. exact I.
Defined.

Lemma LoadMappingFromCSV_same_fields_witness :
  let R := LoadMappingFromCSV _ sample_Open sample_ReadAll "mapping.csv" in
  (snd R = None ↔ None = @None error ∧ same_fields sample_records) ∧
  (snd R = None → R = (valid_rows sample_records, None)) ∧
  (snd R ≠ None → fst R = []) ∧
  (snd R = None → 3 ≤ length (hd [] sample_records) →
     Forall (λ record, 3 ≤ length record) sample_records).
Proof.
  apply (LoadMappingFromCSV_same_fields _ sample_Open sample_read_records
           "mapping.csv" sample_records (fst (sample_read_records sample_records)) None);
    try reflexivity.
  apply (bool_decide_unpack _). vm_compute. exact I.
Defined.

(** ** [BuildLookupMap] *)

Lemma last_team_cons (k : string) (a : StaffMapping.t) (ms : list StaffMapping.t) :
  last_team k (a :: ms) =
    match last_team k ms with
    | Some t => Some t
    | None => if decide (StaffMapping.StaffPassID a = k)
              then Some (StaffMapping.TeamName a) else None
    end.
Proof.
  unfold last_team. case_decide as Hk.
  - rewrite filter_cons_True by done. rewrite last_cons.
    by destruct (last (filter _ ms)).
  - rewrite filter_cons_False by done.
    by destruct (last (filter _ ms)).
Qed.

Lemma last_team_is_Some (k : string) (ms : list StaffMapping.t) :
  is_Some (last_team k ms) ↔ k ∈ StaffMapping.StaffPassID <$> ms.
Proof.
  induction ms as [|a ms IH].
  - cbn. rewrite elem_of_nil. split; [by intros [? ?] | done].
  - rewrite last_team_cons, fmap_cons, elem_of_cons, <- IH.
    destruct (last_team k ms) as [t|]; [split; eauto|].
    case_decide as Hk.
    + split; [intros _; by left | eauto].
    + split; [by intros [? ?] | intros [?|[? ?]]; congruence].
Qed.

Lemma fold_assign_lookup (ms : list StaffMapping.t) (m0 : gmap string string) (k : string) :
  fold_left assign ms m0 !! k =
    match last_team k ms with Some t => Some t | None => m0 !! k end.
Proof.
  revert m0. induction ms as [|a ms IH]; intros m0; [done|].
  cbn [fold_left]. rewrite IH, last_team_cons.
  destruct (last_team k ms) as [t|]; [done|].
  unfold assign. rewrite lookup_insert. by case_decide.
Qed.

Lemma BuildLookupMap_lookup (ms : list StaffMapping.t) (k : string) :
  BuildLookupMap ms !! k = last_team k ms.
Proof.
  unfold BuildLookupMap.
  rewrite fold_assign_lookup, lookup_empty. by destruct (last_team k ms).
Qed.

Lemma BuildLookupMap_dom (ms : list StaffMapping.t) :
  dom (BuildLookupMap ms) = list_to_set (StaffMapping.StaffPassID <$> ms).
Proof.
  apply set_eq. intros k.
  rewrite elem_of_dom, BuildLookupMap_lookup, last_team_is_Some.
  by rewrite elem_of_list_to_set.
Qed.

(** C5: the map built from a sequence of rows has an entry for exactly the
    ids that occur in the sequence, one per distinct id, and the entry of an
    id is the team of the last row with that id. *)
Theorem BuildLookupMap_last_occurrence
  (mappings : list StaffMapping.t) (staffPassID : string) :
  BuildLookupMap mappings !! staffPassID = last_team staffPassID mappings ∧
  (is_Some (BuildLookupMap mappings !! staffPassID) ↔
     staffPassID ∈ StaffMapping.StaffPassID <$> mappings) ∧
  dom (BuildLookupMap mappings) = list_to_set (StaffMapping.StaffPassID <$> mappings) ∧
  size (BuildLookupMap mappings) =
    length (remove_dups (StaffMapping.StaffPassID <$> mappings)).
Proof.
  split; [apply BuildLookupMap_lookup|].
  split; [rewrite BuildLookupMap_lookup; apply last_team_is_Some|].
  split; [apply BuildLookupMap_dom|].
  rewrite <- size_dom, BuildLookupMap_dom.
  rewrite <- (size_list_to_set (C := gset string)
                (remove_dups (StaffMapping.StaffPassID <$> mappings)))
    by apply NoDup_remove_dups.
  f_equal. apply set_eq. intros k.
  by rewrite !elem_of_list_to_set, elem_of_remove_dups.
Qed.

(** ** The scenarios of main_test.go *)

(** The three rows of [TestLoadMappingFromCSV], loaded and looked up. *)
Example scenario_lookup :
  let loaded := load_rows 0 test_records [] in
  length loaded = 3 ∧
  BuildLookupMap loaded !! "STAFF_H123804820G"%string = Some "BASS"%string ∧
  BuildLookupMap loaded !! "MANAGER_T999888420B"%string = Some "RUST"%string ∧
  BuildLookupMap loaded !! "BOSS_T000000001P"%string = Some "RUST"%string ∧
  BuildLookupMap loaded !! "UNKNOWN"%string = None.
Proof. vm_compute. repeat split. Qed.

(** A later row with the same id overwrites the earlier one. *)
Example scenario_overwrite :
  BuildLookupMap
    [ StaffMapping.mk "ID1" "TeamA" 1000; StaffMapping.mk "ID2" "TeamB" 2000;
      StaffMapping.mk "ID1" "TeamC" 3000 ] !! "ID1"%string = Some "TeamC"%string.
Proof. vm_compute. reflexivity. Qed.

(** [TestRedemptionManager]: eligible, redeemed once, then refused, while
    another team stays eligible. *)
Example scenario_redemption :
  let rm0 := NewRedemptionManager in
  let '(rm1, res1) := AddRedemption rm0 "RUST" 1700000000000 in
  let '(rm2, res2) := AddRedemption rm1 "RUST" 1700000000001 in
  snd (IsEligible rm0 "RUST") = true ∧
  res1 = (Some (Redemption.mk "RUST" 1700000000000), None) ∧
  snd (IsEligible rm1 "RUST") = false ∧
  res2 = (None, Some already_redeemed) ∧
  rm2 = rm1 ∧
  snd (IsEligible rm2 "BASS") = true.
Proof. vm_compute. repeat split. Qed.

(** ** The store as a function of the calls *)

Lemma AddRedemption_lookup (rm : RedemptionManager) (t team : string) (now : Z) :
  redemptions (fst (AddRedemption rm t now)) !! team =
    match redemptions rm !! team with
    | Some r => Some r
    | None => if bool_decide (t = team) then Some (Redemption.mk team now) else None
    end.
Proof.
  destruct (redemptions rm !! t) as [r0|] eqn:E.
  - rewrite AddRedemption_taken by eauto. cbn [fst].
    destruct (redemptions rm !! team) as [r|] eqn:E'; [done|].
    rewrite bool_decide_eq_false_2; [done | congruence].
  - rewrite AddRedemption_free by done. cbn [fst redemptions].
    destruct (decide (t = team)) as [->|Hne].
    + rewrite lookup_insert_eq, E. by rewrite bool_decide_eq_true_2.
    + rewrite lookup_insert_ne by done. rewrite bool_decide_eq_false_2 by done.
      by destruct (redemptions rm !! team).
Qed.

Lemma run_lookup (rm : RedemptionManager) (cs : list call) (team : string) :
  redemptions (run rm cs) !! team =
    match redemptions rm !! team with
    | Some r => Some r
    | None => Redemption.mk team <$> first_add team cs
    end.
Proof.
  revert rm. induction cs as [|c cs IH]; intros rm; cbn [run first_add].
  - by destruct (redemptions rm !! team).
  - rewrite IH, exec_fst. destruct c as [t|t now]; [done|].
    rewrite AddRedemption_lookup.
    destruct (redemptions rm !! team) as [r|]; [done|].
    by destruct (bool_decide (t = team)).
Qed.

(** X1: after any sequence of calls the record of a team is the one the
    manager started with, or else the record made by the first
    [AddRedemption] for that team, with the clock of that call; the team is
    eligible exactly when it had no record and no such call was made. *)
Theorem run_lookup_first_add (rm : RedemptionManager) (cs : list call) (team : string) :
  redemptions (run rm cs) !! team =
    match redemptions rm !! team with
    | Some r => Some r
    | None => Redemption.mk team <$> first_add team cs
    end ∧
  (snd (IsEligible (run rm cs) team) = true ↔
     redemptions rm !! team = None ∧ first_add team cs = None).
Proof.
  split; [apply run_lookup|].
  rewrite IsEligible_eq. cbn [snd]. rewrite bool_decide_eq_true, run_lookup.
  destruct (redemptions rm !! team) as [r|]; [split; [done | by intros [? _]]|].
  destruct (first_add team cs); cbn; split; try done. by intros [_ ?].
Qed.

(** X2: the calls of [IsEligible] can be dropped from a sequence: the final
    manager and the successful redemptions stay the same. *)
Theorem run_without_IsEligible (rm : RedemptionManager) (cs : list call) :
  run rm (List.filter is_add cs) = run rm cs ∧
  List.filter succeeds (trace rm (List.filter is_add cs)) = List.filter succeeds (trace rm cs).
Proof.
  revert rm. induction cs as [|c cs IH]; intros rm; [done|].
  destruct c as [t|t now]; cbn [List.filter is_add run trace].
  - rewrite exec_fst, exec_snd. cbn [succeeds]. apply IH.
  - destruct (IH (fst (exec rm (CallAddRedemption t now)))) as [-> ->]. done.
Qed.

(** X3: two [AddRedemption] calls for different teams commute: either order
    gives the same manager and each call the same results. *)
Theorem AddRedemption_commute
  (rm : RedemptionManager) (t1 t2 : string) (n1 n2 : Z) :
  t1 ≠ t2 →
  let A := AddRedemption rm t1 n1 in
  let B := AddRedemption (fst A) t2 n2 in
  let B' := AddRedemption rm t2 n2 in
  let A' := AddRedemption (fst B') t1 n1 in
  fst B = fst A' ∧ snd A = snd A' ∧ snd B = snd B'.
Proof.
  intros Hne A B B' A'. subst A B B' A'.
  destruct (redemptions rm !! t1) as [r1|] eqn:E1;
    destruct (redemptions rm !! t2) as [r2|] eqn:E2.
  - rewrite (AddRedemption_taken rm t1) by eauto. cbn [fst].
    rewrite (AddRedemption_taken rm t2) by eauto. cbn [fst].
    by rewrite (AddRedemption_taken rm t1) by eauto.
  - rewrite (AddRedemption_taken rm t1) by eauto. cbn [fst].
    rewrite (AddRedemption_free rm t2) by done. cbn [fst].
    rewrite AddRedemption_taken; [done|]. cbn [redemptions].
    rewrite lookup_insert_ne by done. eauto.
  - rewrite (AddRedemption_free rm t1) by done. cbn [fst].
    rewrite (AddRedemption_taken rm t2) by eauto. cbn [fst].
    rewrite AddRedemption_taken by (cbn [redemptions]; rewrite lookup_insert_ne by done; eauto).
    by rewrite (AddRedemption_free rm t1) by done.
  - rewrite (AddRedemption_free rm t1) by done. cbn [fst].
    rewrite (AddRedemption_free rm t2) by done. cbn [fst].
    rewrite !AddRedemption_free by (cbn [redemptions]; by rewrite lookup_insert_ne).
    cbn [fst snd redemptions]. split; [|done]. f_equal.
    by apply insert_insert_ne.
Qed.

Lemma first_add_is_Some (team : string) (cs : list call) :
  is_Some (first_add team cs) ↔ team ∈ add_teams cs.
Proof.
  induction cs as [|c cs IH]; cbn [first_add].
  - unfold add_teams. cbn. rewrite elem_of_nil. split; [by intros [? ?] | done].
  - destruct c as [t|t now].
    + by rewrite IH.
    + change (add_teams (CallAddRedemption t now :: cs)) with (t :: add_teams cs).
      rewrite elem_of_cons, <- IH. case_bool_decide as Ht.
      * split; [by left | eauto].
      * split; [by right | intros [?|?]; [congruence | done]].
Qed.

(** X4: the teams with a record after a sequence of calls are those that had
    one before and those [AddRedemption] was called for; the store grows by
    one record per successful call. *)
Theorem run_redeemed_teams (rm : RedemptionManager) (cs : list call) :
  dom (redemptions (run rm cs)) =
    dom (redemptions rm) ∪ list_to_set (add_teams cs) ∧
  size (redemptions (run rm cs)) =
    size (redemptions rm) + length (List.filter succeeds (trace rm cs)).
Proof.
  split.
  - apply set_eq. intros team.
    rewrite elem_of_union, !elem_of_dom, elem_of_list_to_set, <- first_add_is_Some.
    rewrite run_lookup.
    destruct (redemptions rm !! team) as [r|].
    + split; eauto.
    + rewrite fmap_is_Some. split; [by right | intros [[? ?]|?]; done].
  - revert rm. induction cs as [|c cs IH]; intros rm; cbn [run trace List.filter].
    + cbn. lia.
    + rewrite IH, exec_fst, exec_snd. destruct c as [t|t now]; [done|].
      destruct (redemptions rm !! t) as [r0|] eqn:E.
      * by rewrite AddRedemption_taken by eauto.
      * rewrite AddRedemption_free by done. cbn [fst snd redemptions succeeds length].
        rewrite map_size_insert_None by done. lia.
Qed.

Lemma AddRedemption_commute_witness :
  let rm := NewRedemptionManager in
  let A := AddRedemption rm "RUST" 1 in
  let B := AddRedemption (fst A) "BASS" 2 in
  let B' := AddRedemption rm "BASS" 2 in
  let A' := AddRedemption (fst B') "RUST" 1 in
  fst B = fst A' ∧ snd A = snd A' ∧ snd B = snd B'.
Proof. apply (AddRedemption_commute NewRedemptionManager "RUST" "BASS" 1 2). done. Defined.

(** ** [BuildLookupMap]: concatenation, order, and what it ignores *)

Lemma last_team_app (k : string) (l1 l2 : list StaffMapping.t) :
  last_team k (l1 ++ l2) =
    match last_team k l2 with Some t => Some t | None => last_team k l1 end.
Proof.
  unfold last_team. rewrite filter_app, last_app.
  by destruct (last (filter _ l2)).
Qed.

(** X5: the map of a concatenation is the map of the second part, completed
    by the map of the first for the ids the second part does not have. *)
Theorem BuildLookupMap_app (l1 l2 : list StaffMapping.t) :
  BuildLookupMap (l1 ++ l2) = BuildLookupMap l2 ∪ BuildLookupMap l1.
Proof.
  apply map_eq. intros k.
  rewrite lookup_union, !BuildLookupMap_lookup, last_team_app.
  destruct (last_team k l2), (last_team k l1); done.
Qed.

Lemma last_team_id_team (k : string) (l1 l2 : list StaffMapping.t) :
  id_team <$> l1 = id_team <$> l2 → last_team k l1 = last_team k l2.
Proof.
  revert l2. induction l1 as [|a l1 IH]; intros [|b l2]; try done.
  rewrite !fmap_cons. intros [= Hid Hteam Hrest].
  rewrite !last_team_cons, (IH l2 Hrest), Hid, Hteam. done.
Qed.

(** X6: [BuildLookupMap] reads the ids and the teams only: rows that differ
    in [CreatedAt] alone give the same map, so the last row wins whatever its
    timestamp. *)
Theorem BuildLookupMap_ignores_CreatedAt (l1 l2 : list StaffMapping.t) :
  id_team <$> l1 = id_team <$> l2 → BuildLookupMap l1 = BuildLookupMap l2.
Proof.
  intros H. apply map_eq. intros k.
  rewrite !BuildLookupMap_lookup. by apply last_team_id_team.
Qed.

Lemma last_team_Some_elem (k t : string) (l : list StaffMapping.t) :
  last_team k l = Some t →
  ∃ m, m ∈ l ∧ StaffMapping.StaffPassID m = k ∧ StaffMapping.TeamName m = t.
Proof.
  induction l as [|a l IH]; [done|].
  rewrite last_team_cons. destruct (last_team k l) as [t'|].
  - intros [= ->]. destruct IH as (m & ? & ? & ?); [done|].
    exists m. split; [by right | done].
  - case_decide as Hk; [|done]. intros [= <-]. exists a. split; [by left | done].
Qed.

Lemma last_team_NoDup (k : string) (l : list StaffMapping.t) (m : StaffMapping.t) :
  NoDup (StaffMapping.StaffPassID <$> l) → m ∈ l →
  StaffMapping.StaffPassID m = k →
  last_team k l = Some (StaffMapping.TeamName m).
Proof.
  induction l as [|a l IH]; [by intros _ ?%elem_of_nil|].
  rewrite fmap_cons, NoDup_cons, last_team_cons. intros [Ha Hnd] Hm Hk.
  apply elem_of_cons in Hm as [->|Hm].
  - destruct (last_team k l) as [t|] eqn:E.
    + exfalso. apply Ha. rewrite Hk. apply last_team_is_Some. eauto.
    + by rewrite decide_True.
  - by rewrite (IH Hnd Hm Hk).
Qed.

(** X7: when no id occurs twice, the order of the rows does not matter, the
    map has one entry per row, and every row is found under its id. *)
Theorem BuildLookupMap_distinct_ids (l1 l2 : list StaffMapping.t) :
  NoDup (StaffMapping.StaffPassID <$> l1) →
  l1 ≡ₚ l2 →
  BuildLookupMap l1 = BuildLookupMap l2 ∧
  size (BuildLookupMap l1) = length l1 ∧
  (∀ m, m ∈ l1 →
     BuildLookupMap l1 !! StaffMapping.StaffPassID m = Some (StaffMapping.TeamName m)).
Proof.
  intros Hnd Hp.
  assert (Hnd2 : NoDup (StaffMapping.StaffPassID <$> l2)) by by rewrite <- Hp.
  split; [|split].
  - apply map_eq. intros k. rewrite !BuildLookupMap_lookup.
    destruct (last_team k l1) as [t|] eqn:E1.
    + apply last_team_Some_elem in E1 as (m & Hm & Hk & <-).
      symmetry. apply last_team_NoDup; [done | by rewrite <- Hp | done].
    + destruct (last_team k l2) as [t|] eqn:E2; [|done].
      apply last_team_Some_elem in E2 as (m & Hm & Hk & <-).
      rewrite <- Hp in Hm.
      by rewrite (last_team_NoDup k l1 m Hnd Hm Hk) in E1.
  - rewrite <- size_dom, BuildLookupMap_dom.
    rewrite size_list_to_set by done. by rewrite length_fmap.
  - intros m Hm. rewrite BuildLookupMap_lookup. by apply last_team_NoDup.
Qed.

Lemma BuildLookupMap_distinct_ids_witness :
  let l1 := [StaffMapping.mk "ID1" "TeamA" 1000; StaffMapping.mk "ID2" "TeamB" 2000] in
  let l2 := [StaffMapping.mk "ID2" "TeamB" 2000; StaffMapping.mk "ID1" "TeamA" 1000] in
  BuildLookupMap l1 = BuildLookupMap l2 ∧
  size (BuildLookupMap l1) = length l1 ∧
  (∀ m, m ∈ l1 →
     BuildLookupMap l1 !! StaffMapping.StaffPassID m = Some (StaffMapping.TeamName m)).
Proof.
  apply BuildLookupMap_distinct_ids.
  - cbn. apply NoDup_cons. split; [|apply NoDup_singleton].
    intros H%list_elem_of_singleton. discriminate.
  - apply Permutation_swap.
Defined.

Lemma BuildLookupMap_ignores_CreatedAt_witness :
  BuildLookupMap [StaffMapping.mk "ID1" "TeamA" 1000; StaffMapping.mk "ID1" "TeamB" 2000] =
  BuildLookupMap [StaffMapping.mk "ID1" "TeamA" 2000; StaffMapping.mk "ID1" "TeamB" 1000].
Proof. apply BuildLookupMap_ignores_CreatedAt. reflexivity. Defined.

(** ** The loader: more on the loop *)

(** X8: the loop body on a data row of three fields or more appends the
    record of the first three fields exactly when the third is an optional
    sign followed by decimal digits with a value in the [int64] range, and
    leaves the slice alone otherwise. *)
Theorem load_row_numeral
  (mappings : list StaffMapping.t) (i : nat) (f0 f1 f2 : string) (rest : list string) :
  load_row mappings (S i) (f0 :: f1 :: f2 :: rest) =
    match numeral f2 with
    | Some v =>
        if in_int64 v then mappings ++ [StaffMapping.mk f0 f1 v] else mappings
    | None => mappings
    end.
Proof.
  unfold load_row. cbn [Nat.eqb length Nat.ltb Nat.leb nth].
  pose proof (ParseInt_numeral f2) as H.
  destruct (numeral f2) as [v|].
  - destruct (in_int64 v).
    + by rewrite H.
    + destruct (ParseInt f2) as [c [e|]]; [done | cbn in H; done].
  - destruct (ParseInt f2) as [c [e|]]; [done | cbn in H; done].
Qed.

Lemma load_rows_app_from (records more : list (list string)) (i : nat)
  (mappings : list StaffMapping.t) :
  load_rows i (records ++ more) mappings =
    load_rows (i + length records) more (load_rows i records mappings).
Proof.
  revert i mappings. induction records as [|r records IH]; intros i mappings.
  - cbn. by rewrite Nat.add_0_r.
  - cbn [app load_rows length]. rewrite IH. f_equal. lia.
Qed.

Lemma load_rows_extends (records : list (list string)) (i : nat)
  (mappings : list StaffMapping.t) :
  ∃ new, load_rows i records mappings = mappings ++ new ∧ length new ≤ length records.
Proof.
  revert i mappings. induction records as [|r records IH]; intros i mappings.
  - exists []. cbn. by rewrite app_nil_r.
  - cbn [load_rows length].
    destruct (IH (S i) (load_row mappings i r)) as (new & -> & Hlen).
    assert (∃ one, load_row mappings i r = mappings ++ one ∧ length one ≤ 1)
      as (one & -> & H1).
    { unfold load_row. destruct (i =? 0)%nat; [exists []; split; [by rewrite app_nil_r | cbn; lia]|].
      destruct (length r <? 3)%nat; [exists []; split; [by rewrite app_nil_r | cbn; lia]|].
      destruct (ParseInt _) as [c [e|]]; [exists []; split; [by rewrite app_nil_r | cbn; lia]|].
      eexists [_]. split; [done | cbn; lia]. }
    exists (one ++ new). rewrite <- app_assoc. split; [done|].
    rewrite length_app. lia.
Qed.

(** X9: the loop only appends: running it over [records ++ more] is running
    it over [records] and going on with [more] at the next index; what was
    loaded stays as a prefix, and at most one record is added per row. *)
Theorem load_rows_only_appends (records more : list (list string)) (i : nat)
  (mappings : list StaffMapping.t) :
  load_rows i (records ++ more) mappings =
    load_rows (i + length records) more (load_rows i records mappings) ∧
  mappings `prefix_of` load_rows i records mappings ∧
  load_rows i records mappings `prefix_of` load_rows i (records ++ more) mappings ∧
  length (load_rows i records mappings) ≤ length mappings + length records.
Proof.
  split; [apply load_rows_app_from|].
  destruct (load_rows_extends records i mappings) as (new & Hnew & Hlen).
  split; [rewrite Hnew; by apply prefix_app_r|].
  split.
  - rewrite load_rows_app_from.
    destruct (load_rows_extends more (i + length records)
                (load_rows i records mappings)) as (new' & -> & _).
    by apply prefix_app_r.
  - rewrite Hnew, length_app. lia.
Qed.

Lemma length_omap_le {A B : Type} (f : A → option B) (l : list A) :
  length (omap f l) ≤ length l ∧
  (length (omap f l) = length l ↔ Forall (λ x, is_Some (f x)) l).
Proof.
  induction l as [|x l [IH1 IH2]]; [by split|].
  cbn. rewrite Forall_cons. destruct (f x) as [y|]; cbn [length].
  - split; [lia|]. rewrite <- IH2. split; [intros ?; split; [eauto | lia] | intros [_ ?]; lia].
  - split; [lia|]. split; [lia | by intros [[? ?] _]].
Qed.

Lemma last_filter_cons {A : Type} (P : A → Prop) `{!∀ x, Decision (P x)}
  (x : A) (l : list A) :
  last (filter P (x :: l)) =
    match last (filter P l) with
    | Some y => Some y
    | None => if decide (P x) then Some x else None
    end.
Proof.
  case_decide.
  - rewrite filter_cons_True by done. rewrite last_cons. by destruct (last (filter P l)).
  - rewrite filter_cons_False by done. by destruct (last (filter P l)).
Qed.

Lemma last_team_omap (k : string) (rows : list (list string)) :
  last_team k (omap row_mapping rows) =
    (λ r, nth 1 r ""%string) <$> last (filter (kept_for k) rows).
Proof.
  induction rows as [|r rows IH]; [done|].
  rewrite last_filter_cons.
  assert (Hl : last_team k (omap row_mapping (r :: rows)) =
               match last_team k (omap row_mapping rows) with
               | Some t => Some t
               | None => if decide (kept_for k r)
                         then Some (nth 1 r ""%string) else None
               end).
  { cbn [omap list_omap].
    change (list_omap _ _ row_mapping rows) with (omap row_mapping rows).
    destruct (row_mapping r) as [m|] eqn:Hm.
    - rewrite last_team_cons.
      destruct (last_team k (omap row_mapping rows)) as [t|]; [done|].
      pose proof Hm as (_ & _ & H0 & H1)%row_mapping_Some.
      rewrite H0. case_decide as Hk.
      + rewrite decide_True by (split; [by rewrite Hm | done]). by rewrite H1.
      + rewrite decide_False; [done | by intros [_ ?]].
    - destruct (last_team k (omap row_mapping rows)) as [t|]; [done|].
      rewrite decide_False; [done|]. intros [[? Hs] _]. congruence. }
  rewrite Hl, IH.
  destruct (last (filter (kept_for k) rows)); [done|]. cbn.
  by case_decide.
Qed.

Section LoaderMore.

Variable File : Type.
Variable os_Open : string → File * option error.
Variable csv_ReadAll : File → list (list string) * option error.

(** X10: every [CreatedAt] the loader returns is within the range of
    [int64]. *)
Theorem LoadMappingFromCSV_CreatedAt_int64 (filePath : string) :
  Forall (λ m, (- 2 ^ 63 ≤ StaffMapping.CreatedAt m ≤ 2 ^ 63 - 1)%Z)
    (fst (LoadMappingFromCSV File os_Open csv_ReadAll filePath)).
Proof.
  unfold LoadMappingFromCSV.
  destruct (os_Open filePath) as [file [e|]]; [by constructor|].
  destruct (csv_ReadAll file) as [records [e|]]; [by constructor|].
  cbn [fst]. rewrite load_rows_valid_rows. unfold valid_rows.
  apply Forall_forall. intros m (r & _ & Hm)%list_elem_of_omap.
  apply row_mapping_Some in Hm as (_ & Hp & _).
  by apply ParseInt_ok_iff in Hp as [_ ?].
Qed.

(** X11: the loader returns at most one record per row after the first, as
    many as that exactly when every such row has three fields and a third
    field that parses, and none for a table of at most one row. *)
Theorem LoadMappingFromCSV_length
  (filePath : string) (file : File) (records : list (list string)) :
  os_Open filePath = (file, None) →
  csv_ReadAll file = (records, None) →
  let loaded := fst (LoadMappingFromCSV File os_Open csv_ReadAll filePath) in
  length loaded ≤ length records - 1 ∧
  (length loaded = length records - 1 ↔
     Forall (λ r, 3 ≤ length r ∧ snd (ParseInt (nth 2 r ""%string)) = None)
       (tail records)) ∧
  (length records ≤ 1 → loaded = []).
Proof.
  intros Ho Hr loaded. subst loaded.
  rewrite (Load_read _ _ _ _ _ _ Ho Hr). cbn [fst]. unfold valid_rows.
  destruct (length_omap_le row_mapping (tail records)) as [H1 H2].
  assert (Ht : length (tail records) = length records - 1)
    by (destruct records; cbn; lia).
  rewrite Ht in H1, H2.
  split; [done|]. split.
  - rewrite H2. apply Forall_iff. intros r.
    rewrite <- not_eq_None_Some, row_mapping_None.
    destruct (snd (ParseInt (nth 2 r ""%string))) as [e|].
    + split; [intros H; exfalso; apply H; by right | by intros [_ ?]].
    + split.
      * intros H. split; [|done].
        destruct (decide (length r < 3)); [exfalso; apply H; by left | lia].
      * intros [? _] [?|?]; [lia | done].
  - intros Hlen. destruct records as [|h [|r records]]; [done | done | cbn in Hlen; lia].
Qed.

(** X12: looking an id up in the map built from a loaded file gives the
    second field of the last row, after the first, that the loop keeps and
    whose first field is the id. *)
Theorem lookup_after_load
  (filePath : string) (file : File) (records : list (list string)) (k : string) :
  os_Open filePath = (file, None) →
  csv_ReadAll file = (records, None) →
  BuildLookupMap (fst (LoadMappingFromCSV File os_Open csv_ReadAll filePath)) !! k =
    (λ r, nth 1 r ""%string) <$> last (filter (kept_for k) (tail records)).
Proof.
  intros Ho Hr. rewrite (Load_read _ _ _ _ _ _ Ho Hr). cbn [fst].
  rewrite BuildLookupMap_lookup. apply last_team_omap.
Qed.

End LoaderMore.

Lemma LoadMappingFromCSV_length_witness :
  let loaded := fst (LoadMappingFromCSV _ sample_Open sample_ReadAll "mapping.csv") in
  length loaded ≤ length sample_records - 1 ∧
  (length loaded = length sample_records - 1 ↔
     Forall (λ r, 3 ≤ length r ∧ snd (ParseInt (nth 2 r ""%string)) = None)
       (tail sample_records)) ∧
  (length sample_records ≤ 1 → loaded = []).
Proof.
  apply (LoadMappingFromCSV_length _ sample_Open sample_ReadAll "mapping.csv"
           sample_records sample_records); reflexivity.
Defined.

Lemma lookup_after_load_witness :
  BuildLookupMap (fst (LoadMappingFromCSV _ sample_Open sample_ReadAll "mapping.csv"))
    !! "BOSS_T000000001P"%string =
    (λ r, nth 1 r ""%string) <$>
      last (filter (kept_for "BOSS_T000000001P") (tail sample_records)).
Proof.
  apply (lookup_after_load _ sample_Open sample_ReadAll "mapping.csv"
           sample_records sample_records); reflexivity.
Defined.

(** ** [main] and its loop *)

(** The three ways a turn that is not [exit] can go. *)
Lemma serve_one_cases (lookup : gmap string string) (rm : RedemptionManager)
  (s : string) (now : Z) :
  s ≠ "exit"%string →
  serve_one lookup rm s now =
    match lookup !! s with
    | None => (rm, [not_found_line], Continue)
    | Some team =>
        match redemptions rm !! team with
        | None =>
            (fst (AddRedemption rm team now),
             [belongs_line team; success_line team now], Continue)
        | Some _ => (rm, [belongs_line team; refused_line], Continue)
        end
    end.
Proof.
  intros Hs. unfold serve_one. rewrite bool_decide_eq_false_2 by done.
  destruct (lookup !! s) as [team|]; [|done].
  rewrite IsEligible_eq.
  destruct (redemptions rm !! team) as [r|] eqn:E.
  - by rewrite bool_decide_eq_false_2.
  - rewrite bool_decide_eq_true_2 by done.
    by rewrite AddRedemption_free by done.
Qed.

Lemma serve_one_exit (lookup : gmap string string) (rm : RedemptionManager) (now : Z) :
  serve_one lookup rm "exit" now = (rm, [exiting_line], Break).
Proof. done. Qed.

Lemma serve_one_manager (lookup : gmap string string) (rm : RedemptionManager)
  (s : string) (now : Z) :
  s ≠ "exit"%string →
  (serve_one lookup rm s now).1.1 =
    match lookup !! s with
    | Some team => fst (AddRedemption rm team now)
    | None => rm
    end ∧
  (serve_one lookup rm s now).2 = Continue.
Proof.
  intros Hs. rewrite serve_one_cases by done.
  destruct (lookup !! s) as [team|]; [|done].
  destruct (redemptions rm !! team) as [r|] eqn:E; [|done].
  by rewrite AddRedemption_taken by eauto.
Qed.

Lemma serve_cons (lookup : gmap string string) (rm : RedemptionManager)
  (s : string) (now : Z) (rest : list (string * Z)) :
  s ≠ "exit"%string →
  serve lookup rm ((s, now) :: rest) =
    let turn := serve_one lookup rm s now in
    let later := serve lookup turn.1.1 rest in
    (later.1.1, prompt :: turn.1.2 ++ later.1.2, later.2).
Proof.
  intros Hs. cbn [serve].
  pose proof (serve_one_manager lookup rm s now Hs) as [_ Hc].
  destruct (serve_one lookup rm s now) as [[rm1 out1] fl]. cbn in Hc. subst fl.
  cbn [fst snd]. by destruct (serve lookup rm1 rest) as [[rm2 out2] st].
Qed.

Lemma serve_cons_exit (lookup : gmap string string) (rm : RedemptionManager)
  (now : Z) (rest : list (string * Z)) :
  serve lookup rm (("exit"%string, now) :: rest) = (rm, [prompt; exiting_line], Exited).
Proof. done. Qed.

Lemma serve_app (lookup : gmap string string) (pre : list (string * Z))
  (rm : RedemptionManager) :
  "exit"%string ∉ pre.*1 →
  ∃ out, serve lookup rm pre = ((serve lookup rm pre).1.1, out ++ [prompt], Scanning) ∧
    ∀ more,
      let later := serve lookup (serve lookup rm pre).1.1 more in
      serve lookup rm (pre ++ more) = (later.1.1, out ++ later.1.2, later.2).
Proof.
  revert rm. induction pre as [|[s now] pre IH]; intros rm Hne.
  - exists []. split; [done|]. intros more. cbn.
    by destruct (serve lookup rm more) as [[? ?] ?].
  - rewrite fmap_cons, not_elem_of_cons in Hne. destruct Hne as [Hs Hne]. cbn in Hs.
    assert (Hs' : s ≠ "exit"%string) by congruence.
    destruct (IH (serve_one lookup rm s now).1.1 Hne) as (out & Hout & Hmore).
    exists (prompt :: (serve_one lookup rm s now).1.2 ++ out). split.
    + rewrite serve_cons by done. cbn zeta. rewrite Hout at 2 3. cbn [fst snd].
      by rewrite <- app_comm_cons, <- app_assoc.
    + intros more. cbn zeta. rewrite <- app_comm_cons, !serve_cons by done.
      cbn zeta. rewrite Hmore. cbn [fst snd].
      by rewrite <- app_comm_cons, <- app_assoc.
Qed.

Lemma serve_manager_run (lookup : gmap string string) (scans : list (string * Z))
  (rm : RedemptionManager) :
  (serve lookup rm scans).1.1 = run rm (session_calls lookup scans).
Proof.
  revert rm. induction scans as [|[s now] scans IH]; intros rm; [done|].
  cbn [session_calls]. case_bool_decide as Hs.
  - subst s. by rewrite serve_cons_exit.
  - rewrite serve_cons by done. cbn zeta. cbn [fst]. rewrite IH.
    destruct (serve_one_manager lookup rm s now Hs) as [-> _].
    destruct (lookup !! s) as [team|]; [|done].
    cbn [run]. by rewrite exec_fst.
Qed.

(** X13: the manager after the loop has served the scans is the one reached
    by calling [AddRedemption] for the team of every scan before [exit] that
    the table knows; a record that was not there before is for the team of
    a scanned id and carries the clock of that turn. *)
Theorem serve_manager (lookup : gmap string string) (scans : list (string * Z))
  (rm : RedemptionManager) (team : string) (r : Redemption.t) :
  (serve lookup rm scans).1.1 = run rm (session_calls lookup scans) ∧
  (redemptions (serve lookup rm scans).1.1 !! team = Some r →
     redemptions rm !! team = Some r ∨
     ∃ s now, (s, now) ∈ scans ∧ lookup !! s = Some team ∧ r = Redemption.mk team now).
Proof.
  split; [apply serve_manager_run|].
  rewrite serve_manager_run, run_lookup.
  destruct (redemptions rm !! team) as [r0|]; [by left|].
  intros Hr. right.
  destruct (first_add team (session_calls lookup scans)) as [now|] eqn:E; [|done].
  injection Hr as <-. clear -E.
  induction scans as [|[s n] scans IH]; [done|].
  cbn [session_calls] in E. case_bool_decide as Hs; [done|].
  destruct (lookup !! s) as [t|] eqn:Hl.
  - cbn [first_add] in E. case_bool_decide as Ht.
    + injection E as ->. subst t. exists s, now. split; [left | done].
    + destruct (IH E) as (s' & now' & ? & ? & ?). exists s', now'.
      split; [by right | done].
  - destruct (IH E) as (s' & now' & ? & ? & ?). exists s', now'.
    split; [by right | done].
Qed.

(** X14: the loop has exited exactly when [exit] was scanned, and is back
    in [fmt.Scanln] otherwise; whatever follows the first [exit] changes
    nothing. *)
Theorem serve_exit (lookup : gmap string string) (rm : RedemptionManager)
  (scans pre post : list (string * Z)) (now : Z) :
  ((serve lookup rm scans).2 = Exited ↔ "exit"%string ∈ scans.*1) ∧
  ((serve lookup rm scans).2 = Scanning ↔ "exit"%string ∉ scans.*1) ∧
  serve lookup rm (pre ++ ("exit"%string, now) :: post) =
    serve lookup rm (pre ++ [("exit"%string, now)]).
Proof.
  assert (Hst : ∀ scans rm,
            (serve lookup rm scans).2 =
              if decide ("exit"%string ∈ scans.*1) then Exited else Scanning).
  { clear. intros scans. induction scans as [|[s n] scans IH]; intros rm.
    - cbn. rewrite decide_False; [done | apply not_elem_of_nil].
    - rewrite fmap_cons. cbn [fst]. destruct (decide (s = "exit"%string)) as [->|Hs].
      + rewrite serve_cons_exit. cbn. rewrite decide_True; [done | left].
      + rewrite serve_cons by done. cbn zeta. cbn [snd]. rewrite IH.
        destruct (decide ("exit"%string ∈ scans.*1)) as [Hin|Hin].
        * rewrite decide_True; [done | by right].
        * rewrite decide_False; [done|].
          intros [?|?]%elem_of_cons; [congruence | done]. }
  split; [|split].
  - rewrite Hst. case_decide; [done | split; [done | by intros]].
  - rewrite Hst. case_decide; [split; [done | by intros] | done].
  - clear Hst. revert rm. induction pre as [|[s n] pre IH]; intros rm; [done|].
    rewrite <- !app_comm_cons. destruct (decide (s = "exit"%string)) as [->|Hs].
    + by rewrite !serve_cons_exit.
    + rewrite !serve_cons by done. cbn zeta. by rewrite IH.
Qed.

(** Every string the loop writes is one of six kinds. *)
Lemma serve_lines (lookup : gmap string string) (scans : list (string * Z))
  (rm : RedemptionManager) :
  (serve lookup rm scans).2 ≠ Panicked ∧
  Forall (λ line,
            line = prompt ∨ line = exiting_line ∨ line = not_found_line ∨
            line = refused_line ∨
            (∃ team, team ∈ (map_to_list lookup).*2 ∧ line = belongs_line team) ∨
            (∃ team now, team ∈ (map_to_list lookup).*2 ∧ line = success_line team now))
    (serve lookup rm scans).1.2.
Proof.
  revert rm. induction scans as [|[s n] scans IH]; intros rm.
  - split; [done|]. cbn. repeat constructor.
  - destruct (decide (s = "exit"%string)) as [->|Hs].
    + rewrite serve_cons_exit. split; [done|]. cbn [fst snd].
      repeat constructor; by eauto.
    + rewrite serve_cons by done. cbn zeta. cbn [fst snd].
      destruct (IH (serve_one lookup rm s n).1.1) as [IH1 IH2].
      split; [done|]. constructor; [by left|]. apply Forall_app. split; [|done].
      rewrite serve_one_cases by done.
      destruct (lookup !! s) as [team|] eqn:Hl; cbn [fst snd].
      * assert (team ∈ (map_to_list lookup).*2).
        { apply list_elem_of_fmap. exists (s, team). split; [done|].
          by apply elem_of_map_to_list. }
        assert (Hb : ∀ P0 P1 P2 P3 P5 : Prop, P0 ∨ P1 ∨ P2 ∨ P3 ∨
                  (∃ t, t ∈ (map_to_list lookup).*2 ∧ belongs_line team = belongs_line t)
                  ∨ P5) by (intros; do 4 right; left; eauto).
        destruct (redemptions rm !! team); cbn [fst snd].
        -- constructor; [apply Hb|]. constructor; [|constructor].
           do 3 right. by left.
        -- constructor; [apply Hb|]. constructor; [|constructor].
           do 5 right. eauto.
      * constructor; [|constructor]. do 2 right. by left.
Qed.

(** X15: the loop never dereferences a nil record and never writes the line
    "Error during redemption:": in [main] the error branch after a
    successful [IsEligible] is dead. *)
Theorem serve_never_fails (lookup : gmap string string) (scans : list (string * Z))
  (rm : RedemptionManager) :
  (serve lookup rm scans).2 ≠ Panicked ∧
  Forall (λ line, String.prefix "Error during redemption:" line = false)
    (serve lookup rm scans).1.2.
Proof.
  destruct (serve_lines lookup scans rm) as [Hp Hl]. split; [done|].
  eapply Forall_impl; [exact Hl|]. cbv beta.
  intros line [->|[->|[->|[->|[(team & _ & ->)|(team & now & _ & ->)]]]]]; reflexivity.
Qed.

Lemma first_add_session (lookup : gmap string string) (team : string)
  (pre : list (string * Z)) :
  "exit"%string ∉ pre.*1 →
  first_add team (session_calls lookup pre) = None ↔
  Forall (λ s, lookup !! s ≠ Some team) pre.*1.
Proof.
  induction pre as [|[s n] pre IH]; [by split|].
  rewrite fmap_cons, not_elem_of_cons, Forall_cons. cbn [fst]. intros [Hs Hne].
  cbn [session_calls]. rewrite bool_decide_eq_false_2 by congruence.
  destruct (lookup !! s) as [t|] eqn:Hl.
  - cbn [first_add]. case_bool_decide as Ht.
    + subst t. split; [done | by intros [? _]].
    + rewrite (IH Hne). split; [intros ?; split; [congruence | done] | by intros [_ ?]].
  - rewrite (IH Hne). split; [by intros ?; split | by intros [_ ?]].
Qed.

(** X16: the answer to a scanned id that the table maps to a team: after the
    line naming the team, the success line with the clock of the turn if the
    team had no record and no earlier scan of the session maps to the same
    team, and the refusal otherwise; then the next prompt. *)
Theorem serve_reply (lookup : gmap string string) (rm : RedemptionManager)
  (pre : list (string * Z)) (s : string) (now : Z) (team : string) :
  "exit"%string ∉ pre.*1 →
  s ≠ "exit"%string →
  lookup !! s = Some team →
  ∃ out,
    (serve lookup rm pre).1.2 = out ++ [prompt] ∧
    (serve lookup rm (pre ++ [(s, now)])).1.2 =
      out ++ [ prompt; belongs_line team;
               (if decide (redemptions rm !! team = None ∧
                           Forall (λ s', lookup !! s' ≠ Some team) pre.*1)
                then success_line team now else refused_line);
               prompt ].
Proof.
  intros Hne Hs Hl. destruct (serve_app lookup pre rm Hne) as (out & Hout & Hmore).
  exists out. split; [by rewrite Hout|].
  rewrite Hmore. cbn zeta. cbn [fst snd]. f_equal.
  rewrite serve_cons by done. cbn zeta. cbn [fst snd serve].
  rewrite serve_one_cases, Hl by done. rewrite serve_manager_run, run_lookup.
  pose proof (first_add_session lookup team pre Hne) as Hf.
  destruct (redemptions rm !! team) as [r|] eqn:Hr.
  - rewrite decide_False; [done | by intros [? _]].
  - destruct (first_add team (session_calls lookup pre)) as [n|]; cbn [fmap option_fmap option_map].
    + rewrite decide_False; [done|]. intros [_ HF]. by apply Hf in HF.
    + rewrite decide_True; [done|]. split; [done | by apply Hf].
Qed.

Lemma serve_reply_witness :
  ∃ out,
    (serve (BuildLookupMap (valid_rows test_records)) NewRedemptionManager
       [("MANAGER_T999888420B"%string, 7%Z)]).1.2 = out ++ [prompt] ∧
    (serve (BuildLookupMap (valid_rows test_records)) NewRedemptionManager
       ([("MANAGER_T999888420B"%string, 7%Z)] ++ [("BOSS_T000000001P"%string, 8%Z)])).1.2 =
      out ++ [ prompt; belongs_line "RUST";
               (if decide (redemptions NewRedemptionManager !! "RUST"%string = None ∧
                           Forall (λ s', BuildLookupMap (valid_rows test_records) !! s'
                                         ≠ Some "RUST"%string)
                             [("MANAGER_T999888420B"%string, 7%Z)].*1)
                then success_line "RUST" 8 else refused_line);
               prompt ].
Proof.
  apply (serve_reply (BuildLookupMap (valid_rows test_records)) NewRedemptionManager
           [("MANAGER_T999888420B"%string, 7%Z)] "BOSS_T000000001P" 8 "RUST").
  - cbn. intros H%list_elem_of_singleton. discriminate.
  - discriminate.
  - vm_compute. reflexivity.
Defined.

Lemma prefix_append (s1 s2 : string) : String.prefix s1 (s1 +:+ s2) = true.
Proof.
  induction s1 as [|a s1 IH]; [by destruct s2|].
  change (String a s1 +:+ s2) with (String a (s1 +:+ s2)). cbn [String.prefix].
  destruct (ascii_dec a a); [exact IH | congruence].
Qed.

Lemma is_success_line_kinds (team : string) (now : Z) :
  is_success_line prompt = false ∧ is_success_line exiting_line = false ∧
  is_success_line not_found_line = false ∧ is_success_line refused_line = false ∧
  is_success_line (belongs_line team) = false ∧
  is_success_line (success_line team now) = true.
Proof.
  repeat split; try reflexivity.
  unfold is_success_line, success_line. apply prefix_append.
Qed.

(** X17: the loop writes one success line per record it adds to the
    store. *)
Theorem serve_success_lines (lookup : gmap string string) (scans : list (string * Z))
  (rm : RedemptionManager) :
  size (redemptions (serve lookup rm scans).1.1) =
    size (redemptions rm) +
    length (List.filter is_success_line (serve lookup rm scans).1.2).
Proof.
  revert rm. induction scans as [|[s n] scans IH]; intros rm.
  - cbn [serve fst snd List.filter].
    destruct (is_success_line_kinds "" 0) as (-> & _). cbn [length]. lia.
  - destruct (decide (s = "exit"%string)) as [->|Hs].
    + rewrite serve_cons_exit. cbn [fst snd List.filter].
      destruct (is_success_line_kinds "" 0) as (-> & -> & _). cbn [length]. lia.
    + rewrite serve_cons by done. cbn zeta. cbn [fst snd]. rewrite IH.
      cbn [List.filter].
      destruct (is_success_line_kinds "" 0) as (-> & _).
      rewrite List.filter_app, length_app.
      rewrite serve_one_cases by done.
      destruct (lookup !! s) as [team|]; cbn [fst snd List.filter].
      * destruct (is_success_line_kinds team n) as (_ & _ & _ & Hr & Hb & Hsucc).
        destruct (redemptions rm !! team) as [r|] eqn:Hteam; cbn [fst snd List.filter].
        -- rewrite Hb, Hr. cbn [length]. lia.
        -- rewrite Hb, Hsucc. rewrite AddRedemption_free by done.
           cbn [fst redemptions length].
           rewrite map_size_insert_None by done. lia.
      * destruct (is_success_line_kinds "" 0) as (_ & _ & -> & _). cbn [length]. lia.
Qed.

Lemma serve_starts_with_prompt (lookup : gmap string string) (rm : RedemptionManager)
  (scans : list (string * Z)) :
  ∃ out, (serve lookup rm scans).1.2 = prompt :: out.
Proof.
  destruct scans as [|[s n] scans]; [by exists []|].
  destruct (decide (s = "exit"%string)) as [->|Hs].
  - rewrite serve_cons_exit. eauto.
  - rewrite serve_cons by done. cbn zeta. cbn [fst snd]. eauto.
Qed.

Lemma string_app_nil_r (s : string) : s +:+ "" = s.
Proof.
  induction s as [|a s IH]; [done|].
  change (String a s +:+ "") with (String a (s +:+ "")). by rewrite IH.
Qed.

(** The texts of the two errors of [LoadMappingFromCSV]. *)
Lemma Error_load (e : error) :
  Error (fmt_Errorf "unable to open CSV file: %w" e) =
    "unable to open CSV file: " +:+ Error e ∧
  Error (fmt_Errorf "error reading CSV file: %w" e) =
    "error reading CSV file: " +:+ Error e.
Proof.
  split.
  - transitivity ("unable to open CSV file: " +:+ (Error e +:+ "")); [done|].
    by rewrite string_app_nil_r.
  - transitivity ("error reading CSV file: " +:+ (Error e +:+ "")); [done|].
    by rewrite string_app_nil_r.
Qed.

Section MainProperties.

Variable File : Type.
Variable os_Open : string → File * option error.
Variable csv_ReadAll : File → list (list string) * option error.

(** X18: how [main] starts: with fewer than two arguments it writes the usage
    line; if the file cannot be opened or read it writes one line with the
    text of the wrapped error; in both cases it returns without a prompt.
    Otherwise it serves the scans with the map of the loaded rows and a new
    manager. *)
Theorem main_startup (Args : list string) (scans : list (string * Z)) :
  let R := main File os_Open csv_ReadAll Args scans in
  let opened := os_Open (nth 1 Args ""%string) in
  let read := csv_ReadAll (fst opened) in
  (length Args < 2 →
     R = ([Println ["Usage: go run main.go <mapping_csv_file>"%string]], Exited)) ∧
  (∀ e, 2 ≤ length Args → snd opened = Some e →
     R = ([("Error loading mapping file: unable to open CSV file: "
              +:+ Error e +:+ newline)%string], Exited)) ∧
  (∀ e, 2 ≤ length Args → snd opened = None → snd read = Some e →
     R = ([("Error loading mapping file: error reading CSV file: "
              +:+ Error e +:+ newline)%string], Exited)) ∧
  (2 ≤ length Args → snd opened = None → snd read = None →
     let session := serve (BuildLookupMap (valid_rows (fst read)))
                      NewRedemptionManager scans in
     R = (session.1.2, session.2)) ∧
  (prompt ∈ R.1 ↔ 2 ≤ length Args ∧ snd opened = None ∧ snd read = None).
Proof.
  intros R opened read. subst R opened read. unfold main, LoadMappingFromCSV.
  destruct (Nat.ltb_spec (length Args) 2) as [Hlt|Hge].
  { split; [done|]. split; [intros; lia|]. split; [intros; lia|]. split; [intros; lia|].
    split; [|intros [? _]; lia].
    intros H%list_elem_of_singleton. discriminate. }
  split; [intros; lia|].
  destruct (os_Open (nth 1 Args ""%string)) as [file [e|]]; cbn [fst snd].
  { destruct (Error_load e) as [-> _].
    split; [by intros e' _ [= <-]|]. split; [done|]. split; [done|].
    split; [|by intros (_ & ? & _)].
    intros H%list_elem_of_singleton. discriminate. }
  split; [done|].
  destruct (csv_ReadAll file) as [records [e|]]; cbn [fst snd].
  { destruct (Error_load e) as [_ ->].
    split; [by intros e' _ _ [= <-]|]. split; [done|].
    split; [|by intros (_ & _ & ?)].
    intros H%list_elem_of_singleton. discriminate. }
  split; [done|]. rewrite load_rows_valid_rows.
  destruct (serve (BuildLookupMap (valid_rows records)) NewRedemptionManager scans)
    as [[rm' out] st] eqn:Hserve.
  split; [done|]. split; [done|]. intros _.
  destruct (serve_starts_with_prompt (BuildLookupMap (valid_rows records))
              NewRedemptionManager scans) as [out' Hout].
  rewrite Hserve in Hout. cbn in Hout. subst out. cbn [fst]. left.
Qed.

End MainProperties.

(** ** Concurrent calls of [AddRedemption] *)

Module ConcurrentProperties.
Import Concurrent.

Lemma count_nil (P : goroutine → bool) : count P [] = 0.
Proof. done. Qed.

Lemma count_cons (P : goroutine → bool) (g : goroutine) (gs : list goroutine) :
  count P (g :: gs) = (if P g then 1 else 0) + count P gs.
Proof.
  unfold count. destruct (P g) eqn:E.
  - by rewrite filter_cons_True.
  - rewrite filter_cons_False; [done | by rewrite E].
Qed.

Lemma count_insert (P : goroutine → bool) (gs : list goroutine) (i : nat)
  (g g' : goroutine) :
  gs !! i = Some g →
  count P (<[i := g']> gs) + (if P g then 1 else 0) =
    count P gs + (if P g' then 1 else 0).
Proof.
  revert i. induction gs as [|x gs IH]; intros i Hi; [done|].
  destruct i as [|i]; cbn in Hi.
  - injection Hi as ->. cbn [insert list_insert]. rewrite !count_cons. lia.
  - change (<[S i := g']> (x :: gs)) with (x :: <[i := g']> gs).
    rewrite !count_cons. specialize (IH i Hi). lia.
Qed.

Lemma count_zero (P : goroutine → bool) (gs : list goroutine) :
  count P gs = 0 ↔ Forall (λ g, P g = false) gs.
Proof.
  induction gs as [|x gs IH]; [by split|].
  rewrite count_cons, Forall_cons, <- IH.
  destruct (P x); split; try lia; try done; intros [? ?]; done || lia.
Qed.

Lemma count_pos (P : goroutine → bool) (gs : list goroutine) :
  0 < count P gs → ∃ i g, gs !! i = Some g ∧ P g = true.
Proof.
  induction gs as [|x gs IH]; [rewrite count_nil; lia|].
  rewrite count_cons. destruct (P x) eqn:E.
  - intros _. by exists 0, x.
  - intros H. destruct IH as (i & g & Hi & Hg); [lia|]. by exists (S i), g.
Qed.

Lemma count_split (P Q R : goroutine → bool) (gs : list goroutine) :
  Forall (λ g, (if P g then 1 else 0) = (if Q g then 1 else 0) + (if R g then 1 else 0)) gs →
  count P gs = count Q gs + count R gs.
Proof.
  induction 1 as [|x gs Hx _ IH]; [done|]. rewrite !count_cons. lia.
Qed.

(** Only the goroutine that moves changes. *)
Lemma others_not_critical (gs : list goroutine) (i j : nat) (g g' : goroutine) :
  count critical gs = 1 → gs !! i = Some g → critical g = true →
  i ≠ j → gs !! j = Some g' → critical g' = false.
Proof.
  intros Hc Hi Hg Hij Hj.
  pose proof (count_insert critical gs i g (mkGoroutine (teamName g) AtLock) Hi) as H.
  rewrite Hg in H. cbn in H.
  assert (H0 : count critical (<[i := mkGoroutine (teamName g) AtLock]> gs) = 0) by lia.
  apply count_zero in H0.
  eapply (Forall_lookup_1 _ _ j g') in H0; [done|].
  by rewrite list_lookup_insert_ne.
Qed.

Lemma succeeded_decided (team : string) (g : goroutine) :
  succeeded team g = true → decided team g = true.
Proof.
  unfold succeeded, decided. destruct (bool_decide _); [|done].
  by destruct (at_pc g) as [| | | |[[?|] [?|]]|[[?|] [?|]]].
Qed.

Lemma creating_critical (team : string) (g : goroutine) :
  creating team g = true → critical g = true.
Proof.
  unfold creating, critical. destruct (bool_decide _); [|done].
  by destruct (at_pc g).
Qed.

Lemma undecided_count (team : string) (gs : list goroutine) :
  Forall (λ g, decided team g = false) gs → count (succeeded team) gs = 0.
Proof.
  intros H. apply count_zero. eapply Forall_impl; [exact H|].
  intros g Hg. cbv beta in Hg. destruct (succeeded team g) eqn:E; [|done].
  apply succeeded_decided in E. congruence.
Qed.

Lemma critical_locked (team : string) (σ : state) (i : nat) (g : goroutine) :
  inv team σ → goroutines σ !! i = Some g → critical g = true →
  mu σ = true ∧ count critical (goroutines σ) = 1.
Proof.
  intros (I1 & _) Hi Hg.
  pose proof (count_insert critical _ i g (mkGoroutine (teamName g) AtLock) Hi) as H.
  rewrite Hg in H. cbn in H. destruct (mu σ); [done | lia].
Qed.

Lemma count_same (P : goroutine → bool) (gs : list goroutine) (i : nat)
  (g g' : goroutine) :
  gs !! i = Some g → P g' = P g → count P (<[i := g']> gs) = count P gs.
Proof.
  intros Hi HP. pose proof (count_insert P gs i g g' Hi) as H.
  rewrite HP in H. lia.
Qed.

Lemma count_up (P : goroutine → bool) (gs : list goroutine) (i : nat)
  (g g' : goroutine) :
  gs !! i = Some g → P g = false → P g' = true →
  count P (<[i := g']> gs) = S (count P gs).
Proof.
  intros Hi HP HP'. pose proof (count_insert P gs i g g' Hi) as H.
  rewrite HP, HP' in H. lia.
Qed.

Lemma count_down (P : goroutine → bool) (gs : list goroutine) (i : nat)
  (g g' : goroutine) :
  gs !! i = Some g → P g = true → P g' = false →
  S (count P (<[i := g']> gs)) = count P gs.
Proof.
  intros Hi HP HP'. pose proof (count_insert P gs i g g' Hi) as H.
  rewrite HP, HP' in H. lia.
Qed.

(** Evaluate the predicates on a goroutine whose [at_pc] is known. *)
Ltac pred :=
  unfold succeeded, failed, decided, creating, critical, returns_record,
    stores_own_team in *;
  cbn [at_pc teamName] in *;
  rewrite ?andb_false_r, ?andb_true_r in *;
  try done.

Lemma step_inv (team : string) (i : nat) (now : Z) (σ σ' : state) :
  inv team σ → step i now σ = Some σ' → inv team σ'.
Proof.
  intros Hinv Hs. pose proof Hinv as (I1 & I4 & I3 & I2).
  unfold step in Hs. destruct (goroutines σ !! i) as [g|] eqn:Hi; [|done].
  pose proof (Forall_lookup_1 _ _ _ _ I4 Hi) as G4.
  pose proof (Forall_lookup_1 _ _ _ _ I3 Hi) as G3.
  destruct g as [t p]. cbn [at_pc teamName] in Hs.
  destruct p as [| | |r'|res|res].
  - (* Lock *)
    destruct (mu σ) eqn:Hmu; [done|]. injection Hs as <-.
    unfold inv, goto. cbn [mu rm goroutines teamName].
    split; [rewrite (count_up _ _ _ _ _ Hi) by pred; by rewrite I1|].
    split; [by apply Forall_insert|].
    split; [apply Forall_insert; [done|]; pred|].
    destruct (redemptions (rm σ) !! team) as [r|].
    + destruct I2 as (T & C & F1 & F2). split; [done|].
      split; [by rewrite (count_same _ _ _ _ _ Hi) by pred|].
      split; apply Forall_insert; try done; pred.
    + apply Forall_insert; [done|]. pred.
  - (* the lookup *)
    destruct (redemptions (rm σ) !! t) as [r0|] eqn:Ht; injection Hs as <-;
      unfold inv, goto; cbn [mu rm goroutines teamName].
    + split; [by rewrite (count_same _ _ _ _ _ Hi) by pred|].
      split; [by apply Forall_insert|].
      split; [apply Forall_insert; [done|]; pred;
              intros _; by rewrite orb_true_r|].
      destruct (redemptions (rm σ) !! team) as [r|] eqn:Hteam.
      * destruct I2 as (T & C & F1 & F2). split; [done|].
        split; [by rewrite (count_same _ _ _ _ _ Hi) by pred|].
        split; apply Forall_insert; try done; pred.
      * apply Forall_insert; [done|]. pred.
        apply bool_decide_eq_false. congruence.
    + split; [by rewrite (count_same _ _ _ _ _ Hi) by pred|].
      split; [by apply Forall_insert|].
      split; [apply Forall_insert; [done|]; pred|].
      destruct (redemptions (rm σ) !! team) as [r|] eqn:Hteam.
      * destruct I2 as (T & C & F1 & F2). split; [done|].
        split; [by rewrite (count_same _ _ _ _ _ Hi) by pred|].
        split; apply Forall_insert; try done; pred.
        apply bool_decide_eq_false. congruence.
      * apply Forall_insert; [done|]. pred.
  - (* the record is built *)
    injection Hs as <-. unfold inv, goto. cbn [mu rm goroutines teamName].
    split; [by rewrite (count_same _ _ _ _ _ Hi) by pred|].
    split; [apply Forall_insert; [done|]; pred; by apply bool_decide_eq_true|].
    split; [apply Forall_insert; [done|]; pred|].
    destruct (redemptions (rm σ) !! team) as [r|] eqn:Hteam.
    + destruct I2 as (T & C & F1 & F2). split; [done|].
      pose proof (Forall_lookup_1 _ _ _ _ F1 Hi) as G1.
      split; [by rewrite (count_same _ _ _ _ _ Hi) by pred|].
      split; apply Forall_insert; try done; pred.
    + apply Forall_insert; [done|]. pred.
  - (* the assignment to the map *)
    injection Hs as <-. unfold inv, goto. cbn [mu rm goroutines teamName redemptions].
    destruct (critical_locked team σ i _ Hinv Hi) as [Hmu Hone]; [done|].
    split; [by rewrite (count_same _ _ _ _ _ Hi) by pred|].
    split; [apply Forall_insert; [done|]; pred|].
    split; [apply Forall_insert; [done|]; pred; by intros ->|].
    destruct (decide (t = team)) as [->|Hne].
    + rewrite lookup_insert_eq.
      destruct (redemptions (rm σ) !! team) as [r|] eqn:Hteam.
      { destruct I2 as (_ & _ & F1 & _).
        pose proof (Forall_lookup_1 _ _ _ _ F1 Hi) as G1. pred.
        by rewrite bool_decide_eq_true_2 in G1. }
      split; [pred; by apply bool_decide_eq_true in G4|].
      split.
      { rewrite (count_up _ _ _ _ _ Hi).
        - by rewrite (undecided_count team).
        - pose proof (Forall_lookup_1 _ _ _ _ I2 Hi). pred.
        - pred. by apply bool_decide_eq_true. }
      split; apply Forall_lookup; intros j x Hj;
        destruct (decide (i = j)) as [<-|Hij].
      * rewrite list_lookup_insert_eq in Hj by (by eapply lookup_lt_Some).
        injection Hj as <-. pred.
      * rewrite list_lookup_insert_ne in Hj by done.
        destruct (creating team x) eqn:Ex; [|done].
        apply creating_critical in Ex.
        by rewrite (others_not_critical _ i j _ x Hone Hi) in Ex.
      * rewrite list_lookup_insert_eq in Hj by (by eapply lookup_lt_Some).
        injection Hj as <-. pred. intros _. by apply bool_decide_eq_true.
      * rewrite list_lookup_insert_ne in Hj by done.
        intros Ex%succeeded_decided.
        pose proof (Forall_lookup_1 _ _ _ _ I2 Hj) as Dx. cbv beta in Dx. congruence.
    + rewrite lookup_insert_ne by done.
      assert (Hb : bool_decide (t = team) = false) by by apply bool_decide_eq_false.
      destruct (redemptions (rm σ) !! team) as [r|] eqn:Hteam.
      * destruct I2 as (T & C & F1 & F2). split; [done|].
        split; [rewrite (count_same _ _ _ _ _ Hi); [done|]; pred; by rewrite Hb|].
        split; apply Forall_insert; try done; pred. by rewrite Hb.
      * apply Forall_insert; [done|]. pred.
  - (* the deferred Unlock *)
    injection Hs as <-. unfold inv, goto. cbn [mu rm goroutines teamName].
    destruct (critical_locked team σ i _ Hinv Hi) as [Hmu Hone]; [done|].
    split.
    { pose proof (count_down critical _ i _ (mkGoroutine t (Done res)) Hi) as H.
      rewrite Hone in H. injection H as ->; by pred. }
    split; [apply Forall_insert; [done|]; pred|].
    split; [apply Forall_insert; [done|]; pred|].
    destruct (redemptions (rm σ) !! team) as [r|] eqn:Hteam.
    + destruct I2 as (T & C & F1 & F2). split; [done|].
      pose proof (Forall_lookup_1 _ _ _ _ F2 Hi) as G2.
      split; [by rewrite (count_same _ _ _ _ _ Hi) by pred|].
      split; apply Forall_insert; try done; pred.
    + pose proof (Forall_lookup_1 _ _ _ _ I2 Hi) as G2.
      apply Forall_insert; [done|]. pred.
  - done.
Qed.

Lemma launch_inv (team : string) (rm0 : RedemptionManager) (teams : list string) :
  redemptions rm0 !! team = None → inv team (launch rm0 teams).
Proof.
  intros Hfree. unfold inv, launch. cbn [mu rm goroutines]. rewrite Hfree.
  split; [apply count_zero|]; repeat split;
    apply Forall_fmap, Forall_true; intros t; cbn; by pred.
Qed.

Lemma interleave_inv (team : string) (sched : list (nat * Z)) (σ σ' : state) :
  inv team σ → interleave sched σ = Some σ' → inv team σ'.
Proof.
  revert σ. induction sched as [|[i now] sched IH]; intros σ Hinv; cbn [interleave].
  - by intros [= <-].
  - destruct (step i now σ) as [σ1|] eqn:Hs; [|done].
    apply IH. by eapply step_inv.
Qed.

(** A step moves one goroutine and keeps the team every goroutine was
    called for. *)
Lemma step_teams (i : nat) (now : Z) (σ σ' : state) :
  step i now σ = Some σ' →
  teamName <$> goroutines σ' = teamName <$> goroutines σ.
Proof.
  unfold step. destruct (goroutines σ !! i) as [g|] eqn:Hi; [|done].
  intros Hs.
  assert (∃ p, goroutines σ' = goto σ i g p) as [p ->].
  { destruct (at_pc g); try destruct (mu σ); try destruct (redemptions _ !! _);
      simplify_eq; cbn [goroutines]; eauto. }
  unfold goto. rewrite list_fmap_insert. cbn [teamName].
  apply list_insert_id. by rewrite list_lookup_fmap, Hi.
Qed.

Lemma interleave_teams (sched : list (nat * Z)) (σ σ' : state) :
  interleave sched σ = Some σ' →
  teamName <$> goroutines σ' = teamName <$> goroutines σ.
Proof.
  revert σ. induction sched as [|[i now] sched IH]; intros σ; cbn [interleave].
  - by intros [= <-].
  - destruct (step i now σ) as [σ1|] eqn:Hs; [|done].
    intros H. rewrite (IH _ H). by eapply step_teams.
Qed.

(** *** What the calls have returned once all have *)

Lemma all_returned_Forall (σ : state) :
  all_returned σ = true ↔ Forall (λ g, returned g = true) (goroutines σ).
Proof.
  unfold all_returned. rewrite forallb_forall, Forall_forall.
  by setoid_rewrite list_elem_of_In.
Qed.

Lemma returned_decided (g : goroutine) :
  returned g = true → decided (teamName g) g = true.
Proof.
  unfold returned, decided. rewrite bool_decide_eq_true_2 by done.
  by destruct (at_pc g).
Qed.

Lemma succeeded_not_failed (team : string) (g : goroutine) :
  succeeded team g = true → failed team g = false.
Proof.
  unfold succeeded, failed. destruct (bool_decide _); [|done].
  by destruct (at_pc g) as [| | | |[[?|] [?|]]|[[?|] [?|]]].
Qed.

Lemma returns_record_succeeded (r : Redemption.t) (g : goroutine) :
  returns_record r g = true → succeeded (teamName g) g = true.
Proof.
  unfold returns_record, succeeded. rewrite bool_decide_eq_true_2 by done.
  destruct (at_pc g) as [| | | |res|res]; try done;
    by intros ->%bool_decide_eq_true.
Qed.

Lemma count_ext (P Q : goroutine → bool) (gs : list goroutine) :
  Forall (λ g, P g = Q g) gs → count P gs = count Q gs.
Proof.
  induction 1 as [|x gs Hx _ IH]; [done|]. by rewrite !count_cons, Hx, IH.
Qed.

Lemma count_all (P : goroutine → bool) (gs : list goroutine) :
  Forall (λ g, P g = true) gs → count P gs = length gs.
Proof.
  induction 1 as [|x gs Hx _ IH]; [done|]. rewrite count_cons, Hx, IH. done.
Qed.

(** Once every call has returned: of the calls for [team], one succeeded and
    the others failed with [already_redeemed]; the store holds the record
    the successful call returned. *)
Lemma all_returned_once (team : string) (σ : state) :
  inv team σ → all_returned σ = true →
  team ∈ teamName <$> goroutines σ →
  ∃ r, redemptions (rm σ) !! team = Some r ∧
       Redemption.TeamName r = team ∧
       count (succeeded team) (goroutines σ) = 1 ∧
       count (failed team) (goroutines σ) + 1 =
         count (λ g, bool_decide (teamName g = team)) (goroutines σ) ∧
       Forall (λ g, teamName g = team →
                    succeeded team g = returns_record r g) (goroutines σ).
Proof.
  intros (I1 & I4 & I3 & I2) Hall%all_returned_Forall Hin.
  apply list_elem_of_fmap in Hin as (g0 & Hg0 & Hin).
  apply list_elem_of_lookup in Hin as [i0 Hi0].
  destruct (redemptions (rm σ) !! team) as [r|] eqn:Hteam.
  2:{ pose proof (Forall_lookup_1 _ _ _ _ I2 Hi0) as D.
      pose proof (Forall_lookup_1 _ _ _ _ Hall Hi0) as R.
      apply returned_decided in R. cbv beta in D. congruence. }
  destruct I2 as (T & C & F1 & F2).
  exists r. repeat split; try done.
  - rewrite <- C.
    rewrite (count_split (λ g, bool_decide (teamName g = team))
               (succeeded team) (failed team)); [lia|].
    apply Forall_lookup. intros j g Hj.
    pose proof (Forall_lookup_1 _ _ _ _ I3 Hj) as D.
    pose proof (Forall_lookup_1 _ _ _ _ Hall Hj) as R.
    apply returned_decided in R. cbv beta in D.
    destruct (decide (teamName g = team)) as [<-|Hne].
    + rewrite bool_decide_eq_true_2 by done. specialize (D R).
      destruct (succeeded (teamName g) g) eqn:Es.
      * by rewrite succeeded_not_failed.
      * cbn in D. by rewrite D.
    + rewrite bool_decide_eq_false_2 by done.
      unfold succeeded, failed. by rewrite bool_decide_eq_false_2.
  - apply Forall_lookup. intros j g Hj <-.
    pose proof (Forall_lookup_1 _ _ _ _ F2 Hj) as G2. cbv beta in G2.
    destruct (succeeded (teamName g) g) eqn:Es.
    + by rewrite G2.
    + destruct (returns_record r g) eqn:Er; [|done].
      apply returns_record_succeeded in Er. congruence.
Qed.

(** *** Every interleaving is finite and can be run to the end *)

Lemma total_progress_cons (g : goroutine) (gs : list goroutine) :
  total_progress (g :: gs) = progress g + total_progress gs.
Proof. done. Qed.

Lemma total_progress_insert (gs : list goroutine) (i : nat) (g g' : goroutine) :
  gs !! i = Some g →
  total_progress (<[i := g']> gs) + progress g = total_progress gs + progress g'.
Proof.
  revert i. induction gs as [|x gs IH]; intros i Hi; [done|].
  destruct i as [|i]; cbn in Hi.
  - injection Hi as ->. cbn [insert list_insert]. rewrite !total_progress_cons. lia.
  - change (<[S i := g']> (x :: gs)) with (x :: <[i := g']> gs).
    rewrite !total_progress_cons. specialize (IH i Hi). lia.
Qed.

Lemma total_progress_bound (gs : list goroutine) :
  total_progress gs ≤ 5 * length gs.
Proof.
  induction gs as [|x gs IH]; [done|].
  rewrite total_progress_cons. cbn [length].
  assert (progress x ≤ 5) by (unfold progress; destruct (at_pc x); lia). lia.
Qed.

Lemma step_progress (i : nat) (now : Z) (σ σ' : state) :
  step i now σ = Some σ' →
  total_progress (goroutines σ) < total_progress (goroutines σ') ∧
  length (goroutines σ') = length (goroutines σ).
Proof.
  unfold step. destruct (goroutines σ !! i) as [g|] eqn:Hi; [|done].
  intros Hs.
  assert (∃ p, goroutines σ' = goto σ i g p ∧
               progress g < progress (mkGoroutine (teamName g) p)) as (p & -> & Hp).
  { unfold progress at 1.
    destruct (at_pc g); try destruct (mu σ); try destruct (redemptions _ !! _);
      simplify_eq; cbn [goroutines]; eexists; (split; [done|]); cbn; lia. }
  unfold goto. rewrite length_insert. split; [|done].
  pose proof (total_progress_insert _ i g (mkGoroutine (teamName g) p) Hi). lia.
Qed.

Lemma interleave_progress (sched : list (nat * Z)) (σ σ' : state) :
  interleave sched σ = Some σ' →
  length sched + total_progress (goroutines σ) ≤ total_progress (goroutines σ') ∧
  length (goroutines σ') = length (goroutines σ).
Proof.
  revert σ. induction sched as [|[i now] sched IH]; intros σ; cbn [interleave length].
  - intros [= <-]. split; [lia | done].
  - destruct (step i now σ) as [σ1|] eqn:Hs; [|done].
    intros H. apply IH in H as [H1 H2]. apply step_progress in Hs as [H3 H4].
    split; [lia | congruence].
Qed.

Lemma forallb_false_lookup (P : goroutine → bool) (gs : list goroutine) :
  forallb P gs = false → ∃ i g, gs !! i = Some g ∧ P g = false.
Proof.
  induction gs as [|x gs IH]; [done|]. cbn [forallb].
  destruct (P x) eqn:E.
  - intros H. destruct (IH H) as (i & g & Hi & Hg). by exists (S i), g.
  - intros _. by exists 0, x.
Qed.

(** No deadlock: while a call has not returned, some goroutine can move, and
    whatever the clock shows. *)
Lemma some_goroutine_moves (team : string) (σ : state) :
  inv team σ → all_returned σ = false →
  ∃ i, ∀ now, is_Some (step i now σ).
Proof.
  intros (I1 & _) Hnot. destruct (mu σ) eqn:Hmu.
  - destruct (count_pos critical (goroutines σ)) as (i & g & Hi & Hg); [lia|].
    exists i. intros now. unfold step. rewrite Hi.
    unfold critical in Hg.
    destruct (at_pc g); try done; try destruct (redemptions _ !! _); eauto.
  - apply forallb_false_lookup in Hnot as (i & g & Hi & Hg).
    apply count_zero in I1. pose proof (Forall_lookup_1 _ _ _ _ I1 Hi) as Hc.
    exists i. intros now. unfold step. rewrite Hi, Hmu.
    unfold returned in Hg. unfold critical in Hc.
    destruct (at_pc g); try done; eauto.
Qed.

Lemma runs_to_the_end (team : string) (n : nat) (σ : state) :
  5 * length (goroutines σ) - total_progress (goroutines σ) ≤ n →
  inv team σ →
  ∃ sched σ', interleave sched σ = Some σ' ∧ all_returned σ' = true.
Proof.
  revert σ. induction n as [|n IH]; intros σ Hn Hinv;
    (destruct (all_returned σ) eqn:Hall; [by exists [], σ|]);
    destruct (some_goroutine_moves team σ Hinv Hall) as [i Hi];
    destruct (Hi 0%Z) as [σ1 Hs];
    pose proof (step_progress _ _ _ _ Hs) as [Hlt Hlen];
    pose proof (total_progress_bound (goroutines σ1)).
  - lia.
  - destruct (IH σ1) as (sched & σ' & Hrun & Hend);
      [lia | by eapply step_inv|].
    exists ((i, 0%Z) :: sched), σ'. cbn [interleave]. by rewrite Hs.
Qed.

(** A goroutine alone does what the sequential [AddRedemption] does. *)
Lemma alone_AddRedemption (rm0 : RedemptionManager) (team : string) (now : Z) :
  interleave (alone rm0 team now) (launch rm0 [team]) =
    Some {| mu := false;
            rm := fst (AddRedemption rm0 team now);
            goroutines := [mkGoroutine team (Done (snd (AddRedemption rm0 team now)))] |}.
Proof.
  unfold alone, AddRedemption.
  destruct (redemptions rm0 !! team) as [r|] eqn:E; cbn; rewrite E; cbn.
  - done.
  - by destruct rm0.
Qed.

Lemma returned_result (team : string) (r : Redemption.t) (g : goroutine) :
  returned g = true → teamName g = team →
  (succeeded team g = true → returns_record r g = true) →
  succeeded team g = bool_decide (result_of g = Some (Some r, None)) ∧
  failed team g = bool_decide (result_of g = Some (None, Some already_redeemed)).
Proof.
  unfold returned, succeeded, failed, returns_record, result_of.
  intros Hr -> Hs. rewrite bool_decide_eq_true_2 in * by done.
  destruct (at_pc g) as [| | | |res|[[r'|] [e|]]]; try done; cbn in *;
    try (split; symmetry; by apply bool_decide_eq_false).
  - specialize (Hs eq_refl). apply bool_decide_eq_true in Hs. simplify_eq.
    split; [by rewrite bool_decide_eq_true_2 | by rewrite bool_decide_eq_false_2].
  - split; [symmetry; by apply bool_decide_eq_false|].
    destruct (decide (e = already_redeemed)) as [->|Hne].
    + by rewrite !bool_decide_eq_true_2.
    + rewrite !bool_decide_eq_false_2; [done | congruence | done].
Qed.

(** X22: calls for several teams at once: when all have returned, of the
    calls for a team that had no record exactly one succeeded, the others
    failed with [already_redeemed], and the store holds the record the
    successful call returned. *)
Lemma concurrent_AddRedemption_mixed_teams
  (team : string) (teams : list string) (rm0 : RedemptionManager)
  (sched : list (nat * Z)) (σ : state) :
  team ∈ teams →
  redemptions rm0 !! team = None →
  interleave sched (launch rm0 teams) = Some σ →
  all_returned σ = true →
  ∃ r, redemptions (rm σ) !! team = Some r ∧
       Redemption.TeamName r = team ∧
       count (succeeded team) (goroutines σ) = 1 ∧
       count (failed team) (goroutines σ) + 1 =
         length (filter (λ t, t = team) teams).
Proof.
  intros Hin Hfree Hrun Hret.
  assert (Hinv : inv team σ)
    by (eapply interleave_inv; [by apply launch_inv | done]).
  pose proof (interleave_teams _ _ _ Hrun) as Hteams.
  unfold launch in Hteams. cbn [goroutines] in Hteams.
  rewrite <- list_fmap_compose in Hteams. cbn in Hteams.
  rewrite list_fmap_id in Hteams.
  destruct (all_returned_once team σ Hinv Hret) as (r & Hr & Tr & C1 & C2 & F);
    [by rewrite Hteams|].
  exists r. repeat split; try done.
  rewrite C2, <- Hteams. unfold count. clear.
  induction (goroutines σ) as [|g gs IH]; [done|].
  rewrite fmap_cons. destruct (decide (teamName g = team)) as [Hg|Hg].
  - rewrite !filter_cons_True; [|done | by apply bool_decide_eq_true].
    cbn [length]. by rewrite IH.
  - rewrite !filter_cons_False; [done | done |].
    rewrite bool_decide_eq_false_2 by done. done.
Qed.

(** C8: [N] goroutines call [AddRedemption team] on a manager where the team
    has no record.  Every interleaving of their statements is at most [5 * N]
    steps long, has at most one goroutine between [Lock] and [Unlock] at any
    moment, and can be continued until all calls have returned; and when
    all have returned, exactly one returned a record and no error, the
    other [N - 1] returned [already_redeemed], and the store holds for the
    team the record that the one call returned. *)
Theorem concurrent_AddRedemption_exactly_one
  (N : nat) (team : string) (rm0 : RedemptionManager)
  (sched : list (nat * Z)) (σ : state) :
  1 ≤ N →
  redemptions rm0 !! team = None →
  interleave sched (launch rm0 (replicate N team)) = Some σ →
  length sched ≤ 5 * N ∧
  count critical (goroutines σ) ≤ 1 ∧
  (∃ sched' σ', interleave sched' σ = Some σ' ∧ all_returned σ' = true) ∧
  (all_returned σ = true →
     ∃ r, redemptions (rm σ) !! team = Some r ∧
          Redemption.TeamName r = team ∧
          count (λ g, bool_decide (result_of g = Some (Some r, None)))
            (goroutines σ) = 1 ∧
          count (λ g, bool_decide (result_of g = Some (None, Some already_redeemed)))
            (goroutines σ) = N - 1 ∧
          length (goroutines σ) = N).
Proof.
  intros HN Hfree Hrun.
  assert (Hinv : inv team σ)
    by (eapply interleave_inv; [by apply launch_inv | done]).
  pose proof (interleave_teams _ _ _ Hrun) as Hteams.
  pose proof (interleave_progress _ _ _ Hrun) as [Hlen1 Hlen2].
  pose proof (total_progress_bound (goroutines σ)) as Hb.
  unfold launch in Hteams, Hlen2. cbn [goroutines] in Hteams, Hlen2.
  rewrite length_fmap, length_replicate in Hlen2.
  rewrite <- list_fmap_compose in Hteams. cbn in Hteams.
  rewrite list_fmap_id in Hteams.
  assert (Hall : Forall (λ g, teamName g = team) (goroutines σ)).
  { apply (Forall_fmap teamName (λ t, t = team)).
    rewrite Hteams. by apply Forall_replicate. }
  split; [lia|].
  split; [destruct Hinv as [-> _]; destruct (mu σ); lia|].
  split; [by eapply runs_to_the_end|].
  intros Hret.
  destruct (all_returned_once team σ Hinv Hret) as (r & Hr & Tr & C1 & C2 & F).
  { rewrite Hteams. destruct N; [lia|]. left. }
  apply all_returned_Forall in Hret.
  assert (Hres : Forall (λ g,
            succeeded team g = bool_decide (result_of g = Some (Some r, None)) ∧
            failed team g =
              bool_decide (result_of g = Some (None, Some already_redeemed)))
            (goroutines σ)).
  { apply Forall_lookup. intros j g Hj.
    pose proof (Forall_lookup_1 _ _ _ _ Hall Hj) as Tg.
    pose proof (Forall_lookup_1 _ _ _ _ Hret Hj) as Rg.
    pose proof (Forall_lookup_1 _ _ _ _ F Hj Tg) as Fg. cbv beta in *.
    apply returned_result; [done | done |]. intros Hs. by rewrite <- Fg. }
  exists r. split; [done|]. split; [done|].
  rewrite (count_ext (succeeded team)
             (λ g, bool_decide (result_of g = Some (Some r, None)))) in C1
    by (eapply Forall_impl; [exact Hres|]; by intros g [? _]).
  rewrite (count_ext (failed team)
             (λ g, bool_decide (result_of g = Some (None, Some already_redeemed)))) in C2
    by (eapply Forall_impl; [exact Hres|]; by intros g [_ ?]).
  rewrite (count_all (λ g, bool_decide (teamName g = team))) in C2.
  - split; [done|]. split; [lia | done].
  - eapply Forall_impl; [exact Hall|]. intros g Hg. by apply bool_decide_eq_true.
Qed.

Example sample_interleaving :
  interleave sample_schedule (launch NewRedemptionManager (replicate 3 "RUST"%string))
  = Some sample_final.
Proof. vm_compute. reflexivity. Qed.

(** A goroutine that asks for the mutex while another holds it does not
    move. *)
Example sample_blocked :
  interleave [(1, 100%Z); (0, 101%Z)]
    (launch NewRedemptionManager (replicate 3 "RUST"%string)) = None.
Proof. reflexivity. Qed.

Lemma concurrent_AddRedemption_exactly_one_witness :
  length sample_schedule ≤ 5 * 3 ∧
  count critical (goroutines sample_final) ≤ 1 ∧
  (∃ sched' σ', interleave sched' sample_final = Some σ' ∧ all_returned σ' = true) ∧
  (all_returned sample_final = true →
     ∃ r, redemptions (rm sample_final) !! "RUST"%string = Some r ∧
          Redemption.TeamName r = "RUST"%string ∧
          count (λ g, bool_decide (result_of g = Some (Some r, None)))
            (goroutines sample_final) = 1 ∧
          count (λ g, bool_decide (result_of g = Some (None, Some already_redeemed)))
            (goroutines sample_final) = 3 - 1 ∧
          length (goroutines sample_final) = 3).
Proof.
  apply (concurrent_AddRedemption_exactly_one 3 "RUST" NewRedemptionManager
           sample_schedule sample_final);
    [lia | reflexivity | vm_compute; reflexivity].
Defined.

(** *** The mutex alone: exclusion and progress for any calls *)

Lemma step_mutex_ok (i : nat) (now : Z) (σ σ' : state) :
  mutex_ok σ → step i now σ = Some σ' → mutex_ok σ'.
Proof.
  unfold mutex_ok. intros I1 Hs.
  unfold step in Hs. destruct (goroutines σ !! i) as [g|] eqn:Hi; [|done].
  destruct g as [t p]. cbn [at_pc teamName] in Hs.
  destruct p as [| | |r'|res|res].
  - destruct (mu σ) eqn:Hmu; [done|]. injection Hs as <-.
    unfold goto. cbn [mu goroutines teamName].
    rewrite (count_up _ _ _ _ _ Hi) by pred. by rewrite I1.
  - destruct (redemptions (rm σ) !! t); injection Hs as <-;
      unfold goto; cbn [mu goroutines teamName];
      by rewrite (count_same _ _ _ _ _ Hi) by pred.
  - injection Hs as <-. unfold goto. cbn [mu goroutines teamName].
    by rewrite (count_same _ _ _ _ _ Hi) by pred.
  - injection Hs as <-. unfold goto. cbn [mu goroutines teamName].
    by rewrite (count_same _ _ _ _ _ Hi) by pred.
  - injection Hs as <-. unfold goto. cbn [mu goroutines teamName].
    pose proof (count_down critical _ i _ (mkGoroutine t (Done res)) Hi
                  eq_refl eq_refl) as H.
    rewrite I1 in H. destruct (mu σ); [by injection H | discriminate H].
  - done.
Qed.

Lemma launch_mutex_ok (rm0 : RedemptionManager) (teams : list string) :
  mutex_ok (launch rm0 teams).
Proof.
  unfold mutex_ok, launch. cbn [mu goroutines]. apply count_zero.
  by apply Forall_fmap, Forall_true.
Qed.

Lemma interleave_mutex_ok (sched : list (nat * Z)) (σ σ' : state) :
  mutex_ok σ → interleave sched σ = Some σ' → mutex_ok σ'.
Proof.
  revert σ. induction sched as [|[i now] sched IH]; intros σ Hok; cbn [interleave].
  - by intros [= <-].
  - destruct (step i now σ) as [σ1|] eqn:Hs; [|done].
    apply IH. by eapply step_mutex_ok.
Qed.

Lemma mutex_ok_moves (σ : state) :
  mutex_ok σ → all_returned σ = false → ∃ i, ∀ now, is_Some (step i now σ).
Proof.
  unfold mutex_ok. intros I1 Hnot. destruct (mu σ) eqn:Hmu.
  - destruct (count_pos critical (goroutines σ)) as (i & g & Hi & Hg); [lia|].
    exists i. intros now. unfold step. rewrite Hi.
    unfold critical in Hg.
    destruct (at_pc g); try done; try destruct (redemptions _ !! _); eauto.
  - apply forallb_false_lookup in Hnot as (i & g & Hi & Hg).
    apply count_zero in I1. pose proof (Forall_lookup_1 _ _ _ _ I1 Hi) as Hc.
    exists i. intros now. unfold step. rewrite Hi, Hmu.
    unfold returned in Hg. unfold critical in Hc.
    destruct (at_pc g); try done; eauto.
Qed.

Lemma mutex_ok_completes (n : nat) (σ : state) :
  5 * length (goroutines σ) - total_progress (goroutines σ) ≤ n →
  mutex_ok σ →
  ∃ sched σ', interleave sched σ = Some σ' ∧ all_returned σ' = true.
Proof.
  revert σ. induction n as [|n IH]; intros σ Hn Hok;
    (destruct (all_returned σ) eqn:Hall; [by exists [], σ|]);
    destruct (mutex_ok_moves σ Hok Hall) as [i Hi];
    destruct (Hi 0%Z) as [σ1 Hs];
    pose proof (step_progress _ _ _ _ Hs) as [Hlt Hlen];
    pose proof (total_progress_bound (goroutines σ1)).
  - lia.
  - destruct (IH σ1) as (sched & σ' & Hrun & Hend);
      [lia | by eapply step_mutex_ok|].
    exists ((i, 0%Z) :: sched), σ'. cbn [interleave]. by rewrite Hs.
Qed.

(** X19: for any calls on any manager: at most one goroutine is between
    [Lock] and [Unlock], the mutex is locked exactly then and released when
    all calls have returned; an interleaving has at most five steps per call,
    some goroutine can move while a call has not returned, and the calls
    can always be run to the end. *)
Theorem mutex_exclusion_and_progress
  (rm0 : RedemptionManager) (teams : list string)
  (sched : list (nat * Z)) (σ : state) :
  interleave sched (launch rm0 teams) = Some σ →
  count critical (goroutines σ) ≤ 1 ∧
  (mu σ = true ↔ count critical (goroutines σ) = 1) ∧
  (all_returned σ = true → mu σ = false) ∧
  length sched ≤ 5 * length teams ∧
  (all_returned σ = false → ∃ i, ∀ now, is_Some (step i now σ)) ∧
  (∃ sched' σ', interleave sched' σ = Some σ' ∧ all_returned σ' = true).
Proof.
  intros Hrun.
  assert (Hok : mutex_ok σ)
    by (eapply interleave_mutex_ok; [apply launch_mutex_ok | done]).
  pose proof (interleave_progress _ _ _ Hrun) as [Hlen1 Hlen2].
  pose proof (total_progress_bound (goroutines σ)) as Hb.
  unfold launch in Hlen2. cbn [goroutines] in Hlen2. rewrite length_fmap in Hlen2.
  pose proof Hok as Hc. unfold mutex_ok in Hc.
  split; [destruct (mu σ); lia|].
  split; [destruct (mu σ); split; (done || lia)|].
  split.
  { intros Hall%all_returned_Forall. destruct (mu σ); [|done].
    destruct (count_pos critical (goroutines σ)) as (i & g & Hi & Hg); [lia|].
    pose proof (Forall_lookup_1 _ _ _ _ Hall Hi) as Hr. cbv beta in Hr.
    unfold critical in Hg. unfold returned in Hr. by destruct (at_pc g). }
  split; [lia|].
  split; [by apply mutex_ok_moves | by eapply mutex_ok_completes].
Qed.


(** *** Every interleaving is a sequential run *)

Lemma length_trace (rm : RedemptionManager) (cs : list call) :
  length (trace rm cs) = length cs.
Proof. revert rm. induction cs as [|c cs IH]; intros rm; cbn; [done | by rewrite IH]. Qed.

Lemma trace_snoc (rm : RedemptionManager) (cs : list call) (c : call) :
  trace rm (cs ++ [c]) = trace rm cs ++ [(c, snd (exec (run rm cs) c))].
Proof. by rewrite trace_app. Qed.

Lemma run_snoc (rm : RedemptionManager) (cs : list call) (c : call) :
  run rm (cs ++ [c]) = fst (exec (run rm cs) c).
Proof. by rewrite run_app. Qed.

Lemma entries_insert_notin (rm0 : RedemptionManager) (h : list (nat * call))
  (gs : list goroutine) (i : nat) (g' : goroutine) :
  entries rm0 h gs → i ∉ (h.*1) → entries rm0 h (<[i := g']> gs).
Proof.
  intros He Hi k j c Hk. destruct (He k j c Hk) as (g & res & Hg & ?).
  exists g, res. split; [|done]. rewrite list_lookup_insert_ne; [done|].
  intros <-. apply Hi. apply list_elem_of_fmap. exists (i, c).
  split; [done|]. by eapply list_elem_of_lookup_2.
Qed.

Lemma entries_insert_fixed (rm0 : RedemptionManager) (h : list (nat * call))
  (gs : list goroutine) (i : nat) (g g' : goroutine) :
  entries rm0 h gs → gs !! i = Some g → teamName g' = teamName g →
  (∀ res, fixed g res → fixed g' res) →
  entries rm0 h (<[i := g']> gs).
Proof.
  intros He Hi Ht Hf k j c Hk. destruct (He k j c Hk) as (g0 & res & Hg & Hfix & Hc & Htr).
  destruct (decide (i = j)) as [<-|Hij].
  - exists g', res. rewrite list_lookup_insert_eq by (by eapply lookup_lt_Some).
    rewrite Hi in Hg. injection Hg as <-. rewrite Ht. eauto.
  - exists g0, res. by rewrite list_lookup_insert_ne.
Qed.

Lemma entries_snoc (rm0 : RedemptionManager) (h : list (nat * call))
  (gs : list goroutine) (i : nat) (g g' : goroutine) (now : Z)
  (res : option Redemption.t * option error) :
  entries rm0 h gs → i ∉ (h.*1) → gs !! i = Some g →
  fixed g' res →
  snd (AddRedemption (run rm0 (h.*2)) (teamName g') now) = res →
  entries rm0 (h ++ [(i, CallAddRedemption (teamName g') now)]) (<[i := g']> gs).
Proof.
  intros He Hi Hg Hfix Hres k j c Hk.
  assert (Hsnd : (h ++ [(i, CallAddRedemption (teamName g') now)]).*2
                 = h.*2 ++ [CallAddRedemption (teamName g') now])
    by by rewrite fmap_app.
  rewrite Hsnd, trace_snoc.
  destruct (decide (k < length h)) as [Hlt|Hge].
  - rewrite lookup_app_l in Hk by done.
    destruct (entries_insert_notin rm0 h gs i g' He Hi k j c Hk)
      as (g0 & res0 & ? & ? & ? & Htr).
    exists g0, res0. repeat split; try done.
    rewrite lookup_app_l; [done|]. by rewrite length_trace, length_fmap.
  - assert (k = length h) as ->.
    { apply lookup_lt_Some in Hk. rewrite length_app in Hk. cbn in Hk. lia. }
    rewrite list_lookup_middle in Hk by done. injection Hk as <- <-.
    exists g', res. rewrite list_lookup_insert_eq by (by eapply lookup_lt_Some).
    split; [done|]. split; [done|]. split; [eauto|].
    rewrite list_lookup_middle by (by rewrite length_trace, length_fmap).
    by rewrite exec_snd, Hres.
Qed.

Lemma history_snoc (h : list (nat * call)) (i : nat) (c : call) :
  (h ++ [(i, c)]).*1 = h.*1 ++ [i] ∧ (h ++ [(i, c)]).*2 = h.*2 ++ [c].
Proof. by rewrite !fmap_app. Qed.

Lemma mutex_critical_one (σ : state) (i : nat) (g : goroutine) :
  mutex_ok σ → goroutines σ !! i = Some g → critical g = true →
  count critical (goroutines σ) = 1.
Proof.
  unfold mutex_ok. intros I1 Hi Hg.
  pose proof (count_insert critical _ i g (mkGoroutine (teamName g) AtLock) Hi) as H.
  rewrite Hg in H. cbn in H. destruct (mu σ); [done | lia].
Qed.

Lemma placed_snoc_noncritical (h : list (nat * call)) (m m' : gmap string Redemption.t)
  (i j : nat) (c : call) (x : goroutine) :
  j ≠ i → critical x = false → placed h m j x → placed (h ++ [(i, c)]) m' j x.
Proof.
  unfold placed, critical. intros Hji Hc.
  destruct (at_pc x); try done; rewrite (proj1 (history_snoc h i c)).
  - rewrite elem_of_app, list_elem_of_singleton. intros ? [?|?]; done.
  - rewrite elem_of_app. by left.
Qed.

Lemma step_linear (rm0 : RedemptionManager) (h : list (nat * call))
  (i : nat) (now : Z) (σ σ' : state) :
  linear rm0 h σ → step i now σ = Some σ' →
  linear rm0 (h ++ commit i now σ) σ'.
Proof.
  intros (Hok & Hrm & Hnd & He & Hpl) Hs.
  pose proof (step_mutex_ok _ _ _ _ Hok Hs) as Hok'.
  unfold step in Hs. unfold commit.
  destruct (goroutines σ !! i) as [g|] eqn:Hi; [|done].
  pose proof (Hpl i g Hi) as Hg. unfold placed in Hg.
  assert (Hlt : i < length (goroutines σ)) by by eapply lookup_lt_Some.
  destruct g as [t p]. cbn [at_pc teamName] in *.
  destruct p as [| | |r'|res|res].
  - (* Lock *)
    destruct (mu σ) eqn:Hmu; [done|]. injection Hs as <-.
    rewrite app_nil_r. unfold linear, goto in *. cbn [mu rm goroutines teamName] in *.
    repeat split; try done.
    + by apply entries_insert_notin.
    + intros j x Hj. destruct (decide (i = j)) as [<-|Hij].
      * rewrite list_lookup_insert_eq in Hj by done. by injection Hj as <-.
      * rewrite list_lookup_insert_ne in Hj by done. by apply Hpl.
  - (* the lookup *)
    destruct (redemptions (rm σ) !! t) as [r0|] eqn:Ht; injection Hs as <-;
      unfold linear, goto in *; cbn [mu rm goroutines teamName] in *.
    + pose proof (mutex_critical_one σ i _ Hok Hi eq_refl) as Hone.
      assert (Hadd : AddRedemption (run rm0 (h.*2)) t now
                     = (run rm0 (h.*2), (None, Some already_redeemed))).
      { apply AddRedemption_taken. rewrite <- Hrm. eauto. }
      repeat split; try done.
      * rewrite (proj2 (history_snoc h i _)), run_snoc, exec_fst.
        by rewrite Hadd.
      * rewrite (proj1 (history_snoc h i _)). apply NoDup_app.
        split; [done|]. split; [|apply NoDup_singleton].
        intros x Hx ->%list_elem_of_singleton. done.
      * eapply (entries_snoc rm0 h _ i _ (mkGoroutine t _) now); [done..| |].
        -- by left.
        -- cbn [teamName]. by rewrite Hadd.
      * intros j x Hj. destruct (decide (i = j)) as [<-|Hij].
        -- rewrite list_lookup_insert_eq in Hj by done. injection Hj as <-.
           unfold placed. cbn [at_pc].
           rewrite (proj1 (history_snoc h i _)), elem_of_app. right. by left.
        -- rewrite list_lookup_insert_ne in Hj by done.
           eapply placed_snoc_noncritical; [done | | by apply Hpl].
           by eapply (others_not_critical _ i j).
    + rewrite app_nil_r. repeat split; try done.
      * by apply entries_insert_notin.
      * intros j x Hj. destruct (decide (i = j)) as [<-|Hij].
        -- rewrite list_lookup_insert_eq in Hj by done. by injection Hj as <-.
        -- rewrite list_lookup_insert_ne in Hj by done. by apply Hpl.
  - (* the record is built *)
    injection Hs as <-. rewrite app_nil_r.
    unfold linear, goto in *. cbn [mu rm goroutines teamName] in *.
    destruct Hg as [Hnotin Hfree].
    repeat split; try done.
    + by apply entries_insert_notin.
    + intros j x Hj. destruct (decide (i = j)) as [<-|Hij].
      * rewrite list_lookup_insert_eq in Hj by done. by injection Hj as <-.
      * rewrite list_lookup_insert_ne in Hj by done. by apply Hpl.
  - (* the assignment to the map *)
    injection Hs as <-.
    unfold linear, goto in *. cbn [mu rm goroutines teamName redemptions] in *.
    destruct Hg as (Hnotin & Hfree & Hteam).
    pose proof (mutex_critical_one σ i _ Hok Hi eq_refl) as Hone.
    assert (Hr' : r' = Redemption.mk t (Redemption.RedeemedAt r'))
      by (destruct r'; cbn in *; by subst).
    assert (Hadd : AddRedemption (run rm0 (h.*2)) t (Redemption.RedeemedAt r')
                   = ({| redemptions := <[t := r']> (redemptions (rm σ)) |},
                      (Some r', None))).
    { rewrite AddRedemption_free by (by rewrite <- Hrm). by rewrite <- Hrm, <- Hr'. }
    repeat split; try done.
    * rewrite (proj2 (history_snoc h i _)), run_snoc, exec_fst.
      by rewrite Hadd.
    * rewrite (proj1 (history_snoc h i _)). apply NoDup_app.
      split; [done|]. split; [|apply NoDup_singleton].
      intros x Hx ->%list_elem_of_singleton. done.
    * eapply (entries_snoc rm0 h _ i _ (mkGoroutine t _) (Redemption.RedeemedAt r'));
        [done..| |].
      -- by left.
      -- cbn [teamName]. by rewrite Hadd.
    * intros j x Hj. destruct (decide (i = j)) as [<-|Hij].
      -- rewrite list_lookup_insert_eq in Hj by done. injection Hj as <-.
         unfold placed. cbn [at_pc].
         rewrite (proj1 (history_snoc h i _)), elem_of_app. right. by left.
      -- rewrite list_lookup_insert_ne in Hj by done.
         eapply placed_snoc_noncritical; [done | | by apply Hpl].
         by eapply (others_not_critical _ i j).
  - (* the deferred Unlock *)
    injection Hs as <-. rewrite app_nil_r.
    unfold linear, goto in *. cbn [mu rm goroutines teamName] in *.
    repeat split; try done.
    + eapply entries_insert_fixed; [done.. |].
      intros res0 [[= ->]|[=]]. by right.
    + intros j x Hj. destruct (decide (i = j)) as [<-|Hij].
      * rewrite list_lookup_insert_eq in Hj by done. by injection Hj as <-.
      * rewrite list_lookup_insert_ne in Hj by done. by apply Hpl.
  - done.
Qed.

Lemma launch_linear (rm0 : RedemptionManager) (teams : list string) :
  linear rm0 [] (launch rm0 teams).
Proof.
  split; [apply launch_mutex_ok|]. split; [done|]. split; [constructor|].
  split; [by intros k i c ?|].
  intros i g Hg. unfold launch in Hg. cbn [goroutines] in Hg.
  apply list_lookup_fmap_Some in Hg as (t & -> & _).
  unfold placed. cbn. apply not_elem_of_nil.
Qed.

Lemma interleave_linear (rm0 : RedemptionManager) (sched : list (nat * Z))
  (h : list (nat * call)) (σ σ' : state) :
  linear rm0 h σ → interleave sched σ = Some σ' →
  linear rm0 (h ++ history sched σ) σ'.
Proof.
  revert h σ. induction sched as [|[i now] sched IH]; intros h σ Hl;
    cbn [interleave history].
  - intros [= <-]. by rewrite app_nil_r.
  - destruct (step i now σ) as [σ1|] eqn:Hs; [|done].
    intros Hrun. rewrite app_assoc. eapply IH; [|done]. by eapply step_linear.
Qed.

Lemma fixed_inj (g : goroutine) (res res' : option Redemption.t * option error) :
  fixed g res → fixed g res' → res = res'.
Proof. unfold fixed. intros [?|?] [?|?]; congruence. Qed.

Lemma placed_in_history (h : list (nat * call)) (m : gmap string Redemption.t)
  (i : nat) (g : goroutine) :
  placed h m i g → (i ∈ h.*1 ↔ ∃ res, fixed g res).
Proof.
  unfold placed, fixed. destruct (at_pc g) eqn:E.
  1-4: intros H; split; [intros ?; exfalso; tauto | intros (res & [?|?]); done].
  all: intros H; split; [eauto | done].
Qed.

(** X20: an interleaving does what the sequential run of its history does:
    the store is the one [run] reaches on the calls in the order in which
    they took effect, every goroutine whose results are fixed appears once
    in the history with its own team, its results are the outcome of its
    call in that run, and when all calls have returned the history holds
    every goroutine exactly once. *)
Theorem interleaving_is_sequential
  (rm0 : RedemptionManager) (teams : list string)
  (sched : list (nat * Z)) (σ : state) :
  interleave sched (launch rm0 teams) = Some σ →
  let h := history sched (launch rm0 teams) in
  rm σ = run rm0 (h.*2) ∧
  NoDup (h.*1) ∧
  (∀ i g, goroutines σ !! i = Some g → (i ∈ h.*1 ↔ ∃ res, fixed g res)) ∧
  (∀ k i c, h !! k = Some (i, c) →
     ∃ g t now res,
       goroutines σ !! i = Some g ∧ teams !! i = Some t ∧
       c = CallAddRedemption t now ∧ fixed g res ∧
       trace rm0 (h.*2) !! k = Some (c, RetAddRedemption res)) ∧
  (all_returned σ = true → h.*1 ≡ₚ seq 0 (length teams)).
Proof.
  intros Hrun h. subst h.
  pose proof (interleave_linear rm0 sched [] _ _ (launch_linear rm0 teams) Hrun)
    as (Hok & Hrm & Hnd & He & Hpl).
  rewrite app_nil_l in *.
  pose proof (interleave_teams _ _ _ Hrun) as Hteams.
  unfold launch in Hteams. cbn [goroutines] in Hteams.
  rewrite <- list_fmap_compose in Hteams. cbn in Hteams.
  rewrite list_fmap_id in Hteams.
  split; [done|]. split; [done|].
  split; [intros i g Hg; by eapply placed_in_history, Hpl|].
  split.
  - intros k i c Hk. destruct (He k i c Hk) as (g & res & Hg & Hf & (now & ->) & Htr).
    exists g, (teamName g), now, res. repeat split; try done.
    by rewrite <- Hteams, list_lookup_fmap, Hg.
  - intros Hall%all_returned_Forall. apply NoDup_Permutation; [done | apply NoDup_seq|].
    intros i. rewrite elem_of_seq. split.
    + intros ((j & c) & -> & Hin)%list_elem_of_fmap.
      apply list_elem_of_lookup in Hin as [k Hk].
      destruct (He k j c Hk) as (g & res & Hg & _).
      apply lookup_lt_Some in Hg.
      rewrite <- Hteams, length_fmap. cbn. lia.
    + intros [_ Hlt]. cbn in Hlt. rewrite <- Hteams, length_fmap in Hlt.
      destruct (lookup_lt_is_Some_2 _ _ Hlt) as [g Hg].
      apply (placed_in_history _ _ _ _ (Hpl i g Hg)).
      pose proof (Forall_lookup_1 _ _ _ _ Hall Hg) as Hr. cbv beta in Hr.
      unfold returned in Hr. unfold fixed. destruct (at_pc g); try done. eauto.
Qed.

Lemma trace_taken (cs : list call) (rm : RedemptionManager) (team : string)
  (k : nat) (now : Z) (res : option Redemption.t * option error) :
  is_Some (redemptions rm !! team) →
  trace rm cs !! k = Some (CallAddRedemption team now, RetAddRedemption res) →
  res = (None, Some already_redeemed).
Proof.
  revert rm k. induction cs as [|c cs IH]; intros rm k Hsome; [done|].
  cbn [trace]. destruct k as [|k]; cbn [lookup list_lookup].
  - intros [= -> Hres]. rewrite exec_snd in Hres.
    injection Hres as <-. by rewrite AddRedemption_taken.
  - apply IH. rewrite exec_fst. destruct c as [t|t n]; [done|].
    rewrite AddRedemption_lookup. destruct Hsome as [r ->]. eauto.
Qed.

(** X21: concurrent calls for a team that already has a record all fail with
    [already_redeemed] and leave that record in place, whatever other calls
    run beside them. *)
Theorem concurrent_AddRedemption_already_redeemed
  (team : string) (r0 : Redemption.t) (teams : list string) (rm0 : RedemptionManager)
  (sched : list (nat * Z)) (σ : state) :
  redemptions rm0 !! team = Some r0 →
  interleave sched (launch rm0 teams) = Some σ →
  redemptions (rm σ) !! team = Some r0 ∧
  Forall (λ g, teamName g = team →
               ∀ res, fixed g res → res = (None, Some already_redeemed))
    (goroutines σ).
Proof.
  intros Hr0 Hrun.
  pose proof (interleave_linear rm0 sched [] _ _ (launch_linear rm0 teams) Hrun)
    as (Hok & Hrm & Hnd & He & Hpl).
  rewrite app_nil_l in *.
  split; [by rewrite Hrm, run_lookup, Hr0|].
  apply Forall_lookup. intros i g Hg Hteam res Hfix.
  assert (Hin : i ∈ (history sched (launch rm0 teams)).*1)
    by (apply (placed_in_history _ _ _ _ (Hpl i g Hg)); eauto).
  apply list_elem_of_fmap in Hin as ((j & c) & -> & Hin).
  apply list_elem_of_lookup in Hin as [k Hk].
  destruct (He k j c Hk) as (g' & res' & Hg' & Hf' & (now & ->) & Htr).
  cbn in Hg. rewrite Hg in Hg'. injection Hg' as <-.
  rewrite (fixed_inj _ _ _ Hfix Hf'). rewrite Hteam in Htr.
  eapply trace_taken; [|exact Htr]. eauto.
Qed.

Example sample_history :
  history sample_schedule_mixed
    (launch NewRedemptionManager ["RUST"; "BASS"; "RUST"]%string) =
  [ (2, CallAddRedemption "RUST" 22); (1, CallAddRedemption "BASS" 27);
    (0, CallAddRedemption "RUST" 31) ].
Proof. vm_compute. reflexivity. Qed.

Lemma mutex_exclusion_and_progress_witness :
  count critical (goroutines sample_final_mixed) ≤ 1 ∧
  (mu sample_final_mixed = true ↔ count critical (goroutines sample_final_mixed) = 1) ∧
  (all_returned sample_final_mixed = true → mu sample_final_mixed = false) ∧
  length sample_schedule_mixed ≤ 5 * length ["RUST"; "BASS"; "RUST"]%string ∧
  (all_returned sample_final_mixed = false →
     ∃ i, ∀ now, is_Some (step i now sample_final_mixed)) ∧
  (∃ sched' σ', interleave sched' sample_final_mixed = Some σ' ∧ all_returned σ' = true).
Proof.
  apply (mutex_exclusion_and_progress NewRedemptionManager
           ["RUST"; "BASS"; "RUST"]%string sample_schedule_mixed sample_final_mixed).
  vm_compute. reflexivity.
Defined.

Lemma interleaving_is_sequential_witness :
  let h := history sample_schedule_mixed
             (launch NewRedemptionManager ["RUST"; "BASS"; "RUST"]%string) in
  rm sample_final_mixed = run NewRedemptionManager (h.*2) ∧
  NoDup (h.*1) ∧
  (∀ i g, goroutines sample_final_mixed !! i = Some g →
          (i ∈ h.*1 ↔ ∃ res, fixed g res)) ∧
  (∀ k i c, h !! k = Some (i, c) →
     ∃ g t now res,
       goroutines sample_final_mixed !! i = Some g ∧
       ["RUST"; "BASS"; "RUST"]%string !! i = Some t ∧
       c = CallAddRedemption t now ∧ fixed g res ∧
       trace NewRedemptionManager (h.*2) !! k = Some (c, RetAddRedemption res)) ∧
  (all_returned sample_final_mixed = true →
     h.*1 ≡ₚ seq 0 (length ["RUST"; "BASS"; "RUST"]%string)).
Proof.
  apply (interleaving_is_sequential NewRedemptionManager
           ["RUST"; "BASS"; "RUST"]%string sample_schedule_mixed sample_final_mixed).
  vm_compute. reflexivity.
Defined.

Lemma concurrent_AddRedemption_already_redeemed_witness :
  redemptions (rm sample_final_refused) !! "RUST"%string
    = Some (Redemption.mk "RUST" 1) ∧
  Forall (λ g, teamName g = "RUST"%string →
               ∀ res, fixed g res → res = (None, Some already_redeemed))
    (goroutines sample_final_refused).
Proof.
  apply (concurrent_AddRedemption_already_redeemed "RUST" (Redemption.mk "RUST" 1)
           (replicate 3 "RUST"%string) sample_redeemed
           sample_schedule_refused sample_final_refused).
  - reflexivity.
  - vm_compute. reflexivity.
Defined.

Lemma concurrent_AddRedemption_mixed_teams_witness :
  ∃ r, redemptions (rm sample_final_mixed) !! "RUST"%string = Some r ∧
       Redemption.TeamName r = "RUST"%string ∧
       count (succeeded "RUST") (goroutines sample_final_mixed) = 1 ∧
       count (failed "RUST") (goroutines sample_final_mixed) + 1 =
         length (filter (λ t, t = "RUST"%string) ["RUST"; "BASS"; "RUST"]%string).
Proof.
  apply (concurrent_AddRedemption_mixed_teams "RUST" ["RUST"; "BASS"; "RUST"]%string
           NewRedemptionManager sample_schedule_mixed sample_final_mixed).
  - left.
  - reflexivity.
  - vm_compute. reflexivity.
  - reflexivity.
Defined.

End ConcurrentProperties.
